(** * The child side of a cross-window component: [ChildComponent]

    A shallow embedding of [ChildComponent] (constructor, [init],
    [setWindows], [watchForClose], the PROPS and CLOSE listeners, [close]
    and [error]) as state-passing functions over the execution context the
    instance runs in.  Everything the class does to the outside (log lines,
    listeners, post-messages, lifecycle hooks, window watchers,
    [window.close()]) is appended to an event trace of the context. *)

From Stdlib Require Import String List Bool Arith ZArith Lia.
Import ListNotations.
Open Scope string_scope.

Set Implicit Arguments.

(** ** Values *)

(** A reference to another window (what [getParentWindow()] returns). *)
Definition WindowRef := nat.

(** [CONTEXT_TYPES] of the constants module. *)
Inductive CONTEXT_TYPES := IFRAME | POPUP.

(** [POST_MESSAGE] of the constants module: the protocol vocabulary. *)
Inductive POST_MESSAGE := INIT | PROPS | CLOSE | RESIZE | ERROR.

(** A thrown value.  [isIntegrationError] is [err instanceof IntegrationError],
    [stack] is [err.stack] ([None] for [undefined]) and [toString] the result
    of [err.toString()]. *)
Record JsError := {
  isIntegrationError : bool;
  message : string;
  stack : option string;
  toString : string
}.

(** A property value and the ordered bag of properties [this.props]. *)
Inductive Value := VUndefined | VBool (b : bool) | VNum (n : Z) | VStr (s : string).
Definition Props := list (string * Value).

(** The data carried by a post-message. *)
Inductive Payload :=
| NoData
| ErrorData (error : string)
| ResizeData (width height : Z).

(** What [parseWindowName(window.name)] yields; only [tag] is read here. *)
Record WinProps := { win_tag : string }.

(** The lifecycle hooks of an instance, and the two windows that are watched. *)
Inductive Hook := OnEnter | OnClose | OnProps | OnError.
Inductive WatchTarget := WatchParent | WatchParentComponent.

(** The names given to [this.component.log]. *)
Inductive LogName :=
| construct_child
| init_child
| child_standalone
| child_win_props
| parent_window_closed
| parent_component_window_closed
| send_to_parent (name : POST_MESSAGE)
| send_to_parent_component (name : POST_MESSAGE)
| close_child
| log_error (detail : string)
| log_resize (width height : Z).

(** What an execution context can observe of a [ChildComponent]. *)
Inductive Event :=
| EvLog (l : LogName)
| EvConsoleError (s : option string)
| EvListen (w : option WindowRef)
| EvSend (target : option WindowRef) (name : POST_MESSAGE) (data : Payload)
| EvHook (h : Hook) (arg : option JsError) (seen : Props)
| EvWatch (t : WatchTarget)
| EvWindowClose
| EvResizeTo (width height : Z).

(** A function-valued field such as [this.onClose]: called with an optional
    error after the given history, it returns ([None]) or lets an exception
    escape ([Some e]). *)
Definition Callback := option JsError -> list Event -> option JsError.

(** ** State *)

(** The fields of a [ChildComponent] instance. *)
Record ChildComponent := {
  cid : nat;
  tag : string;
  standalone : bool;
  props : Props;
  context : option CONTEXT_TYPES;
  onEnter : Callback;
  onClose : Callback;
  onProps : Callback;
  onError : Callback
}.

(** The execution context: [window.__activeXComponent__] (the identity of the
    instance stored there), the results of [getParentWindow()] and
    [getParentComponentWindow()], the outcome of
    [parseWindowName(window.name)], the stack the engine gives to a
    [new Error(msg)], the registered window watchers and the trace. *)
Record Window := {
  activeXComponent : option nat;
  parentWindow : option WindowRef;
  parentComponentWindow : option WindowRef;
  windowName : JsError + WinProps;
  captureStack : string -> option string;
  watchers : list (WatchTarget * nat);
  events : list Event
}.

Record St := { this : ChildComponent; window : Window }.

(** ** A state and exception monad *)

Inductive Result (A : Type) :=
| Ok (a : A)
| Throw (e : JsError).
Arguments Ok {A} a.
Arguments Throw {A} e.

Definition M (A : Type) := St -> Result A * St.

Definition ret {A} (a : A) : M A := fun s => (Ok a, s).
Definition throw {A} (e : JsError) : M A := fun s => (Throw e, s).
Definition bind {A B} (m : M A) (k : A -> M B) : M B :=
  fun s => match m s with
           | (Ok a, s') => k a s'
           | (Throw e, s') => (Throw e, s')
           end.
(** [try { m } catch (err) { h err }] *)
Definition try_catch {A} (m : M A) (h : JsError -> M A) : M A :=
  fun s => match m s with
           | (Ok a, s') => (Ok a, s')
           | (Throw e, s') => h e s'
           end.

Notation "x <- m ;; k" := (bind m (fun x => k))
  (at level 61, m at next level, right associativity).
Notation "m ;; k" := (bind m (fun _ => k))
  (at level 61, right associativity).

Definition get_this : M ChildComponent := fun s => (Ok (this s), s).
Definition get_window : M Window := fun s => (Ok (window s), s).
Definition put_this (c : ChildComponent) : M unit :=
  fun s => (Ok tt, {| this := c; window := window s |}).
Definition update_window (f : Window -> Window) : M unit :=
  fun s => (Ok tt, {| this := this s; window := f (window s) |}).

Definition add_event (e : Event) (w : Window) : Window :=
  {| activeXComponent := activeXComponent w;
     parentWindow := parentWindow w;
     parentComponentWindow := parentComponentWindow w;
     windowName := windowName w;
     captureStack := captureStack w;
     watchers := watchers w;
     events := events w ++ [e] |}.

Definition emit (e : Event) : M unit := update_window (add_event e).

(** ** Collaborators *)

Definition truthy {A} (o : option A) : bool :=
  match o with Some _ => true | None => false end.

(** Truthiness of [err.stack]: [undefined] and the empty string are falsy. *)
Definition truthy_string (o : option string) : bool :=
  match o with
  | Some s => negb (String.eqb s "")
  | None => false
  end.

(** [a !== b] on window references. *)
Definition differ (a b : option WindowRef) : bool :=
  match a, b with
  | Some x, Some y => negb (Nat.eqb x y)
  | None, None => false
  | _, _ => true
  end.

(** [Error.prototype.toString] of a plain [Error]. *)
Definition Error_toString (msg : string) : string :=
  if String.eqb msg "" then "Error" else "Error: " ++ msg.

(** The object [new Error(msg)] builds in the context [w]. *)
Definition plain_Error (w : Window) (msg : string) : JsError :=
  {| isIntegrationError := false;
     message := msg;
     stack := captureStack w msg;
     toString := Error_toString msg |}.

(** [new Error(msg)] *)
Definition new_Error (msg : string) : M JsError :=
  w <- get_window ;; ret (plain_Error w msg).

Definition throw_new_Error {A} (msg : string) : M A :=
  e <- new_Error msg ;; throw e.

(** [this.component.log(name)]: a line in the log of the component. *)
Definition log (l : LogName) : M unit := emit (EvLog l).

(** [getParentWindow()] and [getParentComponentWindow()] of the library look
    at the surroundings of the window; what they find is part of the
    context. *)
Definition getParentWindow : M (option WindowRef) :=
  w <- get_window ;; ret (parentWindow w).
Definition getParentComponentWindow : M (option WindowRef) :=
  w <- get_window ;; ret (parentComponentWindow w).

(** [parseWindowName(window.name)]: the decoded name, or the exception the
    decoder throws on a name it cannot read. *)
Definition parseWindowName : M WinProps :=
  w <- get_window ;;
  match windowName w with
  | inl e => throw e
  | inr wp => ret wp
  end.

(** [postRobot.send(win, name, data)]: the reply arrives later, see
    [init_then] and [init_catch]. *)
Definition postRobot_send (win : option WindowRef) (name : POST_MESSAGE)
    (data : Payload) : M unit :=
  emit (EvSend win name data).

(** [this.listen(win)] of the base class: the listeners of the instance are
    registered for messages from [win]. *)
Definition listen (win : option WindowRef) : M unit := emit (EvListen win).

(** Modelled from the spec: [onCloseWindow] of the library is absent; the
    window liveness watch takes a window getter and a callback and invokes the
    callback exactly once when the referenced window becomes unreachable.  The
    registration is kept with the watchers of the context, under the identity
    of the instance whose callback it is. *)
Definition add_watcher (t : WatchTarget) (id : nat) (w : Window) : Window :=
  {| activeXComponent := activeXComponent w;
     parentWindow := parentWindow w;
     parentComponentWindow := parentComponentWindow w;
     windowName := windowName w;
     captureStack := captureStack w;
     watchers := watchers w ++ [(t, id)];
     events := events w |}.

Definition onCloseWindow (t : WatchTarget) : M unit :=
  c <- get_this ;;
  update_window (add_watcher t (cid c)) ;;
  emit (EvWatch t).

(** Calling one of the guarded hooks ([this.onClose.call(this, err)]). *)
Definition hook_of (c : ChildComponent) (h : Hook) : Callback :=
  match h with
  | OnEnter => onEnter c
  | OnClose => onClose c
  | OnProps => onProps c
  | OnError => onError c
  end.

Definition call (h : Hook) (arg : option JsError) : M unit :=
  c <- get_this ;;
  w <- get_window ;;
  emit (EvHook h arg (props c)) ;;
  match hook_of c h arg (events w) with
  | None => ret tt
  | Some e => throw e
  end.

(** ** Property bags *)

(** [obj[k] = v] on an ordered property bag: an existing key keeps its place,
    a new key goes last. *)
Fixpoint assign (k : string) (v : Value) (obj : Props) : Props :=
  match obj with
  | [] => [(k, v)]
  | (k', v') :: rest =>
      if String.eqb k k' then (k, v) :: rest else (k', v') :: assign k v rest
  end.

(** Modelled from the spec: [extend] of the library is absent;
    merge(current, incoming) overwrites matching keys, preserves others and
    preserves the prior insertion order of untouched keys.  The keys of
    [source] are assigned into [obj] one after the other. *)
Definition extend (obj source : Props) : Props :=
  fold_left (fun o kv => assign (fst kv) (snd kv) o) source obj.

Fixpoint lookup (k : string) (obj : Props) : option Value :=
  match obj with
  | [] => None
  | (k', v) :: rest => if String.eqb k k' then Some v else lookup k rest
  end.

Definition keys (obj : Props) : list string := map fst obj.

(** ** The class *)

Definition newline : string := String (Ascii.ascii_of_nat 10) "".

(** [window.__activeXComponent__ = this] *)
Definition mark_active (id : nat) (w : Window) : Window :=
  {| activeXComponent := Some id;
     parentWindow := parentWindow w;
     parentComponentWindow := parentComponentWindow w;
     windowName := windowName w;
     captureStack := captureStack w;
     watchers := watchers w;
     events := events w |}.

Definition set_active (id : nat) : M unit := update_window (mark_active id).

Definition multiple_message (t : string) : string :=
  "[" ++ t ++ "] Can not attach multiple components to the same window".
Definition no_parent_message (t : string) : string :=
  "[" ++ t ++ "] Can not find parent window".
Definition no_parent_component_message (t : string) : string :=
  "[" ++ t ++ "] Can not find parent component window".
Definition mismatch_message (t found : string) : string :=
  "[" ++ t ++ "] Parent is " ++ found ++ " - can not attach " ++ t.
Definition parent_closed_message (t : string) : string :=
  "[" ++ t ++ "] parent window was closed".
Definition parent_component_closed_message (t : string) : string :=
  "[" ++ t ++ "] parent component window was closed".
Definition lifecycle_message (t : string) : string :=
  "[" ++ t ++ "] Child lifecycle method threw an error".

(** [sendToParent(name, data)] *)
Definition sendToParent (name : POST_MESSAGE) (data : Payload) : M unit :=
  log (send_to_parent name) ;;
  pw <- getParentWindow ;;
  postRobot_send pw name data.

(** [sendToParentComponent(name, data)] *)
Definition sendToParentComponent (name : POST_MESSAGE) (data : Payload) : M unit :=
  log (send_to_parent_component name) ;;
  pcw <- getParentComponentWindow ;;
  postRobot_send pcw name data.

(** [close(err)] *)
Definition close (err : option JsError) : M unit :=
  log close_child ;;
  call OnClose err ;;
  sendToParent CLOSE NoData.

(** The callback [watchForClose] gives to the watch of the parent window. *)
Definition parent_window_closed_callback : M unit :=
  log parent_window_closed ;;
  c <- get_this ;;
  e <- new_Error (parent_closed_message (tag c)) ;;
  call OnClose (Some e) ;;
  c' <- get_this ;;
  match context c' with
  | Some POPUP => emit EvWindowClose
  | _ => ret tt
  end.

(** The callback [watchForClose] gives to the watch of the parent component
    window. *)
Definition parent_component_window_closed_callback : M unit :=
  log parent_component_window_closed ;;
  c <- get_this ;;
  e <- new_Error (parent_component_closed_message (tag c)) ;;
  close (Some e).

(** [watchForClose()] *)
Definition watchForClose : M unit :=
  onCloseWindow WatchParent ;;
  pcw <- getParentComponentWindow ;;
  pw <- getParentWindow ;;
  if truthy pcw && differ pcw pw
  then onCloseWindow WatchParentComponent
  else ret tt.

(** [setWindows()] *)
Definition setWindows : M unit :=
  c <- get_this ;;
  w <- get_window ;;
  if truthy (activeXComponent w)
  then throw_new_Error (multiple_message (tag c))
  else
    set_active (cid c) ;;
    pw <- getParentWindow ;;
    if negb (truthy pw)
    then throw_new_Error (no_parent_message (tag c))
    else
      pcw <- getParentComponentWindow ;;
      if negb (truthy pcw)
      then throw_new_Error (no_parent_component_message (tag c))
      else
        winProps <- parseWindowName ;;
        log child_win_props ;;
        if negb (String.eqb (win_tag winProps) (tag c))
        then throw_new_Error (mismatch_message (tag c) (win_tag winProps))
        else watchForClose.

(** What [init()] hands back to its caller. *)
Inductive InitReturn :=
| ReturnsUndefined
| ReturnsResolved
| ReturnsHandshake.

(** [init()], up to the point where the INIT request is on its way. *)
Definition init : M InitReturn :=
  log init_child ;;
  c <- get_this ;;
  resolved <- try_catch (setWindows ;; ret true)
                (fun err =>
                   if standalone c
                   then log child_standalone ;; ret false
                   else throw err) ;;
  if negb resolved then ret ReturnsUndefined
  else
    pcw <- getParentComponentWindow ;;
    if standalone c && negb (truthy pcw)
    then ret ReturnsResolved
    else
      listen pcw ;;
      pw <- getParentWindow ;;
      pcw' <- getParentComponentWindow ;;
      (if differ pw pcw' then listen pw else ret tt) ;;
      sendToParentComponent INIT NoData ;;
      ret ReturnsHandshake.

(** The reply to INIT: [{ context, props }]. *)
Record InitData := { data_context : option CONTEXT_TYPES; data_props : Props }.

Definition set_context (x : option CONTEXT_TYPES) : M unit :=
  c <- get_this ;;
  put_this {| cid := cid c; tag := tag c; standalone := standalone c;
              props := props c; context := x;
              onEnter := onEnter c; onClose := onClose c;
              onProps := onProps c; onError := onError c |}.

(** [extend(this.props, source)] *)
Definition extend_props (source : Props) : M unit :=
  c <- get_this ;;
  put_this {| cid := cid c; tag := tag c; standalone := standalone c;
              props := extend (props c) source; context := context c;
              onEnter := onEnter c; onClose := onClose c;
              onProps := onProps c; onError := onError c |}.

(** The [.catch(err => this.onError(err))] of [init] and of the CLOSE relay. *)
Definition init_catch (err : JsError) : M unit := call OnError (Some err).

(** The [.then(data => ...)] of [init], with its [.catch]. *)
Definition init_then (data : InitData) : M unit :=
  try_catch
    (set_context (data_context data) ;;
     extend_props (data_props data) ;;
     call OnEnter None ;;
     call OnProps None)
    init_catch.

(** [listeners()[POST_MESSAGE.PROPS]], given [data.props]. *)
Definition listener_PROPS (incoming : Props) : M unit :=
  extend_props incoming ;;
  call OnProps None.

(** [listeners()[POST_MESSAGE.CLOSE]]; a rejection of the relayed CLOSE comes
    back through [init_catch]. *)
Definition listener_CLOSE (source : WindowRef) : M unit :=
  pw <- getParentWindow ;;
  if negb (differ (Some source) pw)
  then call OnClose None
  else sendToParent CLOSE NoData.

(** [err.stack ? `${err.message}\n${err.stack}` : err.toString()] *)
Definition error_text (err : JsError) : string :=
  match stack err with
  | Some s => if truthy_string (Some s)
              then message err ++ newline ++ s
              else toString err
  | None => toString err
  end.

(** [err.stack || err.toString()] *)
Definition error_detail (err : JsError) : string :=
  match stack err with
  | Some s => if truthy_string (Some s) then s else toString err
  | None => toString err
  end.

(** [error(err)] *)
Definition error (err : JsError) : M unit :=
  log (log_error (error_detail err)) ;;
  err' <- (if negb (isIntegrationError err)
           then
             emit (EvConsoleError (stack err)) ;;
             c <- get_this ;;
             new_Error (lifecycle_message (tag c))
           else ret err) ;;
  sendToParentComponent ERROR (ErrorData (error_text err')).

(** Whether [x] is the watch this instance holds on [t]. *)
Definition is_watcher (t : WatchTarget) (id : nat) (x : WatchTarget * nat) : bool :=
  match t, fst x with
  | WatchParent, WatchParent => Nat.eqb id (snd x)
  | WatchParentComponent, WatchParentComponent => Nat.eqb id (snd x)
  | _, _ => false
  end.

Definition watch_callback (t : WatchTarget) : M unit :=
  match t with
  | WatchParent => parent_window_closed_callback
  | WatchParentComponent => parent_component_window_closed_callback
  end.

Definition drop_watcher (t : WatchTarget) (id : nat) (w : Window) : Window :=
  {| activeXComponent := activeXComponent w;
     parentWindow := parentWindow w;
     parentComponentWindow := parentComponentWindow w;
     windowName := windowName w;
     captureStack := captureStack w;
     watchers := filter (fun x => negb (is_watcher t id x)) (watchers w);
     events := events w |}.

(** Modelled from the spec: the watch of [onCloseWindow] fires.  The callback
    registered for [t] by this instance runs, and the registration goes: the
    callback is invoked exactly once. *)
Definition window_closed (t : WatchTarget) : M unit :=
  c <- get_this ;;
  w <- get_window ;;
  if existsb (is_watcher t (cid c)) (watchers w)
  then update_window (drop_watcher t (cid c)) ;; watch_callback t
  else ret tt.

(** ** The constructor *)

Record Options := {
  opt_onEnter : option Callback;
  opt_onClose : option Callback;
  opt_onProps : option Callback;
  opt_onError : option Callback;
  opt_defaultProps : option Props;
  opt_standalone : bool
}.

Definition noop : Callback := fun _ _ => None.

(** The thrown value of [throw undefined]. *)
Definition js_undefined : JsError :=
  {| isIntegrationError := false; message := ""; stack := None;
     toString := "undefined" |}.

(** [err => { throw err; }] *)
Definition rethrow : Callback :=
  fun err _ => match err with Some e => Some e | None => Some js_undefined end.

Definition or_else {A} (o : option A) (d : A) : A :=
  match o with Some a => a | None => d end.

Section Constructor.

(** [tryCatch] of the base class and [normalizeProps] are not part of this
    file: the constructor is given them.  [tryCatch] receives what the
    instance is built from, the method, and its optional second argument. *)
Variable tryCatch : Options -> Callback -> option bool -> Callback.
Variable normalizeProps : string -> Props -> Props.

(** [new ChildComponent(component, options)] in the context [w]. *)
Definition construct (id : nat) (component_tag : string) (options : Options)
    (w : Window) : St :=
  {| this :=
       {| cid := id;
          tag := component_tag;
          standalone := opt_standalone options;
          props := normalizeProps component_tag
                     (or_else (opt_defaultProps options) []);
          context := None;
          onEnter := tryCatch options (or_else (opt_onEnter options) noop) None;
          onClose := tryCatch options (or_else (opt_onClose options) noop) None;
          onProps := tryCatch options (or_else (opt_onProps options) noop) (Some false);
          onError := tryCatch options (or_else (opt_onError options) rethrow) None |};
     window := add_event (EvLog construct_child) w |}.

End Constructor.

(** ** Reading a trace *)

Definition is_listen_or_send (e : Event) : bool :=
  match e with
  | EvListen _ | EvSend _ _ _ => true
  | _ => false
  end.

(** The listeners registered and the post-messages dispatched, in order. *)
Definition messaging (t : list Event) : list Event := filter is_listen_or_send t.

Definition is_send (e : Event) : bool :=
  match e with EvSend _ _ _ => true | _ => false end.
Definition sent (t : list Event) : list Event := filter is_send t.

Definition is_hook (h : Hook) (e : Event) : bool :=
  match e, h with
  | EvHook OnEnter _ _, OnEnter => true
  | EvHook OnClose _ _, OnClose => true
  | EvHook OnProps _ _, OnProps => true
  | EvHook OnError _ _, OnError => true
  | _, _ => false
  end.
Definition hook_calls (h : Hook) (t : list Event) : list Event := filter (is_hook h) t.

Definition is_window_close (e : Event) : bool :=
  match e with EvWindowClose => true | _ => false end.
Definition window_closes (t : list Event) : list Event := filter is_window_close t.

(** The trace of the state an operation ends in. *)
Definition trace_of {A} (r : Result A * St) : list Event := events (window (snd r)).

(** ** The life of an execution context *)

(** What can happen in an execution context once an instance sits in it:
    the methods and listeners of the instance run, a watched window goes
    away, the replies to INIT come in, the surroundings change, or another
    instance is constructed and initialised in the same context. *)
Inductive Action :=
| DoInit
| DoClose (err : option JsError)
| DoError (err : JsError)
| DoPropsMessage (incoming : Props)
| DoCloseMessage (source : WindowRef)
| DoInitReply (data : InitData)
| DoInitFailure (err : JsError)
| DoWindowClosed (t : WatchTarget)
| DoSurroundings (pw pcw : option WindowRef) (name : JsError + WinProps)
| DoAttach (c : ChildComponent).

Definition move_window (pw pcw : option WindowRef) (name : JsError + WinProps)
    (w : Window) : Window :=
  {| activeXComponent := activeXComponent w;
     parentWindow := pw;
     parentComponentWindow := pcw;
     windowName := name;
     captureStack := captureStack w;
     watchers := watchers w;
     events := events w |}.

Definition surroundings (pw pcw : option WindowRef) (name : JsError + WinProps)
    : M unit :=
  update_window (move_window pw pcw name).

Definition perform (a : Action) : M unit :=
  match a with
  | DoInit => init ;; ret tt
  | DoClose err => close err
  | DoError err => error err
  | DoPropsMessage incoming => listener_PROPS incoming
  | DoCloseMessage source => listener_CLOSE source
  | DoInitReply data => init_then data
  | DoInitFailure err => init_catch err
  | DoWindowClosed t => window_closed t
  | DoSurroundings pw pcw name => surroundings pw pcw name
  | DoAttach c => put_this c ;; init ;; ret tt
  end.

(** The state after a run of actions; an exception that escapes one of them
    ends that action only. *)
Definition run (l : list Action) (s : St) : St :=
  fold_left (fun st a => snd (perform a st)) l s.

(** A request to close: a call of [close(err)] or a CLOSE message from the
    window [source]. *)
Inductive CloseRequest :=
| CloseCall (err : option JsError)
| CloseMessage (source : WindowRef).

Definition request (q : CloseRequest) : M unit :=
  match q with
  | CloseCall err => close err
  | CloseMessage source => listener_CLOSE source
  end.






(** A guard that lets the method through as it is, props that need no
    normalising, and the options of a standalone page with two defaults. *)
Definition bare_tryCatch (_ : Options) (method : Callback) (_ : option bool)
    : Callback := method.

Definition bare_normalizeProps (_ : string) (p : Props) : Props := p.

Definition standalone_options : Options :=
  {| opt_onEnter := None; opt_onClose := None; opt_onProps := None;
     opt_onError := None;
     opt_defaultProps := Some [("x", VNum 1); ("y", VNum 1)];
     opt_standalone := true |}.

(** An operation that never changes [window.__activeXComponent__] once it is
    set. *)
Definition keeps_mark {A} (m : M A) : Prop :=
  forall s,
    truthy (activeXComponent (window s)) = true ->
    activeXComponent (window (snd (m s))) = activeXComponent (window s).

(** ** Sample instances and contexts *)

Definition sample_child (id : nat) (t : string) (alone : bool)
    (ctx : option CONTEXT_TYPES) : ChildComponent :=
  {| cid := id; tag := t; standalone := alone;
     props := [("x", VNum 1); ("y", VNum 1)];
     context := ctx;
     onEnter := noop; onClose := noop; onProps := noop; onError := rethrow |}.

Definition sample_window (active : option nat) (pw pcw : option WindowRef)
    (found : string) : Window :=
  {| activeXComponent := active;
     parentWindow := pw;
     parentComponentWindow := pcw;
     windowName := inr {| win_tag := found |};
     captureStack := fun _ => None;
     watchers := [];
     events := [] |}.

(** Whether the text [whole] has [part] somewhere in it. *)
Definition mentions (part whole : string) : bool :=
  match String.index 0 part whole with
  | Some _ => true
  | None => false
  end.

(** A "foo" instance in a window that was made for "bar" and has lost its
    parent. *)
Definition foo_in_orphaned_bar : St :=
  {| this :=
       {| cid := 1; tag := "foo"; standalone := false;
          props := []; context := None;
          onEnter := fun _ _ => None; onClose := fun _ _ => None;
          onProps := fun _ _ => None; onError := fun _ _ => None |};
     window :=
       {| activeXComponent := None;
          parentWindow := None;
          parentComponentWindow := None;
          windowName := inr {| win_tag := "bar" |};
          captureStack := fun _ => None;
          watchers := [];
          events := [] |} |}.

(** An error raised on purpose by the integration, and one that was not. *)
Definition integration_failure : JsError :=
  {| isIntegrationError := true;
     message := "bad props";
     stack := Some "at render";
     toString := "IntegrationError: bad props" |}.

Definition unknown_failure : JsError :=
  {| isIntegrationError := false;
     message := "token 1234 rejected";
     stack := Some "at pay (checkout.js:7)";
     toString := "TypeError: token 1234 rejected" |}.

(** A standalone instance arriving in a context that is already taken. *)
Definition taken_standalone : St :=
  {| this := sample_child 2 "foo" true None;
     window := sample_window (Some 1) (Some 10) (Some 10) "foo" |}.

(** An instance arriving in a context that is already taken. *)
Definition taken_strict : St :=
  {| this := sample_child 2 "foo" false None;
     window := sample_window (Some 1) (Some 10) (Some 10) "foo" |}.

(** A "foo" instance in a window made for "bar". *)
Definition foo_in_bar (alone : bool) : St :=
  {| this := sample_child 1 "foo" alone None;
     window := sample_window None (Some 10) (Some 10) "bar" |}.

(** A "foo" instance in a window made for "foo", rendered by the window 10 on
    behalf of the window 11. *)
Definition foo_delegated (ctx : option CONTEXT_TYPES) : St :=
  {| this := sample_child 1 "foo" false ctx;
     window := sample_window None (Some 10) (Some 11) "foo" |}.

(** The same instance once [watchForClose] has run. *)
Definition foo_watching (ctx : option CONTEXT_TYPES) : St :=
  snd (watchForClose (foo_delegated ctx)).

(** An instance in a window nobody opened. *)
Definition orphan (alone : bool) : St :=
  {| this := sample_child 1 "foo" alone None;
     window := sample_window None None None "" |}.

(** ** Resizing *)

(** [resize(width, height)]: the body of the [then] callback. *)
Definition resize (width height : Z) : M unit :=
  log (log_resize width height) ;;
  c <- get_this ;;
  match context c with
  | Some POPUP => emit (EvResizeTo width height)
  | _ => sendToParent RESIZE (ResizeData width height)
  end.

Definition is_resize_to (e : Event) : bool :=
  match e with EvResizeTo _ _ => true | _ => false end.

(** The calls of [window.resizeTo] in a trace. *)
Definition resizes (t : list Event) : list Event := filter is_resize_to t.

(** ** More on traces *)

Definition is_INIT (e : Event) : bool :=
  match e with EvSend _ INIT _ => true | _ => false end.

(** The INIT requests of a trace. *)
Definition inits (t : list Event) : list Event := filter is_INIT t.

(** An operation that leaves [window.__activeXComponent__] alone, sends no
    INIT and registers no watch. *)
Definition quiet {A} (m : M A) : Prop :=
  forall s,
    activeXComponent (window (snd (m s))) = activeXComponent (window s) /\
    inits (events (window (snd (m s)))) = inits (events (window s)) /\
    incl (watchers (window (snd (m s)))) (watchers (window s)).

(** What holds of an execution context all along: at most one INIT has been
    sent, none as long as the context is free, and every watch belongs to the
    instance stored in the context. *)
Definition orderly (w : Window) : Prop :=
  length (inits (events w)) <= 1 /\
  (activeXComponent w = None -> inits (events w) = [] /\ watchers w = []) /\
  (forall t id, In (t, id) (watchers w) -> activeXComponent w = Some id).

(** An operation that touches neither the instance nor what was listened to
    and sent. *)
Definition silent {A} (m : M A) : Prop :=
  forall s,
    this (snd (m s)) = this s /\
    messaging (events (window (snd (m s)))) = messaging (events (window s)).




(** A hook that lets an exception escape, and instances that have one. *)
Definition throwing : Callback := fun _ _ => Some unknown_failure.

Definition touchy_child (ctx : option CONTEXT_TYPES) : ChildComponent :=
  {| cid := 1; tag := "foo"; standalone := false;
     props := [("x", VNum 1); ("y", VNum 1)];
     context := ctx;
     onEnter := throwing; onClose := throwing; onProps := noop;
     onError := noop |}.

Definition touchy_watching (ctx : option CONTEXT_TYPES) : St :=
  snd (watchForClose
         {| this := touchy_child ctx;
            window := sample_window None (Some 10) (Some 11) "foo" |}).

(** A "foo" instance in a window made for "foo" by the window 10 itself. *)
Definition foo_at_home (alone : bool) : St :=
  {| this := sample_child 1 "foo" alone None;
     window := sample_window None (Some 10) (Some 10) "foo" |}.

(** The context a successful [setWindows] of the instance [id] leaves. *)
Definition resolved_window (id : nat) (w : Window) : Window :=
  let w1 := add_event (EvWatch WatchParent)
              (add_watcher WatchParent id
                 (add_event (EvLog child_win_props) (mark_active id w))) in
  if differ (parentComponentWindow w) (parentWindow w)
  then add_event (EvWatch WatchParentComponent)
         (add_watcher WatchParentComponent id w1)
  else w1.

(** The surroundings in which a window resolution can succeed: the context is
    free, both parent windows are found and the window name decodes to the tag
    of the component. *)
Definition resolvable (s : St) : Prop :=
  activeXComponent (window s) = None /\
  truthy (parentWindow (window s)) = true /\
  truthy (parentComponentWindow (window s)) = true /\
  exists wp, windowName (window s) = inr wp /\ win_tag wp = tag (this s).

(** * The render drivers of the parent side

    [RENDER_DRIVERS]: how the parent component opens the frame or the popup
    window of a child, and what it registers for the clean-up. *)

Module Drivers.

(** A settled or still pending [ZalgoPromise]. *)
Inductive Promise (A : Type) :=
| Resolved (a : A)
| Rejected (e : JsError)
| Pending.
Arguments Resolved {A} a.
Arguments Rejected {A} e.
Arguments Pending {A}.

(** What a call of a driver method comes to: an exception thrown at the
    caller, or a promise handed back. *)
Inductive Outcome (A : Type) :=
| Thrown (e : JsError)
| Returned (p : Promise A).
Arguments Thrown {A} e.
Arguments Returned {A} p.

(** An element of the page, here a frame. *)
Definition Element := nat.

(** A [ProxyObject]: [get()] gives a promise for the object behind it. *)
Record ProxyObject := { get : Promise Element }.

(** A [ProxyWindow], as [toProxyWindow(win)] builds it. *)
Inductive ProxyWindow := toProxyWindow (win : WindowRef).

(** The tasks given to [this.clean.register]. *)
Inductive CleanTask :=
| CancelWatcher (frame : Element)
| DestroyElement (frame : Element)
| CleanUpWindow (win : WindowRef)
| CloseAndCleanUpWindow (win : WindowRef).

(** What the drivers are given by the libraries and the browser:
    [awaitFrameWindow], [assertSameDomain] (with the exception it throws for
    a window of another domain), [iframe] and [getProxyObject], [popup]
    (which throws when the window cannot be opened), [normalizeDimension],
    [uniqueID()], [window.outerWidth] and the stack of a new error. *)
Record Browser := {
  awaitFrameWindow : Element -> Promise WindowRef;
  sameDomain : WindowRef -> bool;
  domainError : WindowRef -> JsError;
  iframe : Props -> Element;
  getProxyObject : Element -> ProxyObject;
  popup : Props -> JsError + WindowRef;
  normalizeDimension : string -> Z -> Z;
  uniqueID : string;
  outerWidth : Z;
  stackOf : string -> option string
}.

(** The parent component a driver method is called on: its component (name,
    dimensions, attributes per context), its clean-up register and the
    frames it watches for removal. *)
Record Parent := {
  component_name : string;
  dimension_width : string;
  dimension_height : string;
  attributes_iframe : Props;
  attributes_popup : Props;
  clean : list CleanTask;
  watched : list Element
}.

Definition register (tasks : list CleanTask) (p : Parent) : Parent :=
  {| component_name := component_name p;
     dimension_width := dimension_width p;
     dimension_height := dimension_height p;
     attributes_iframe := attributes_iframe p;
     attributes_popup := attributes_popup p;
     clean := clean p ++ tasks;
     watched := watched p |}.

(** [watchElementForClose(frame, () => this.close())] *)
Definition watchElementForClose (frame : Element) (p : Parent) : Parent :=
  {| component_name := component_name p;
     dimension_width := dimension_width p;
     dimension_height := dimension_height p;
     attributes_iframe := attributes_iframe p;
     attributes_popup := attributes_popup p;
     clean := clean p;
     watched := watched p ++ [frame] |}.

(** An object literal with a spread at its end, [{ ...literal, ...rest }]: the
    keys of [rest] are assigned after the ones written out. *)
Definition spread (literal rest : Props) : Props :=
  fold_left (fun o kv => assign (fst kv) (snd kv) o) rest literal.

(** [new Error(`Expected proxy frame to be passed`)] *)
Definition no_frame_error (b : Browser) : JsError :=
  {| isIntegrationError := false;
     message := "Expected proxy frame to be passed";
     stack := stackOf b "Expected proxy frame to be passed";
     toString := Error_toString "Expected proxy frame to be passed" |}.

(** The attributes [openFrame] gives to [iframe]. *)
Definition frame_attributes (p : Parent) (windowName : string) : Props :=
  spread [("name", VStr windowName); ("title", VStr (component_name p))]
    (attributes_iframe p).

(** [RENDER_DRIVERS[CONTEXT.IFRAME].openFrame] *)
Definition iframe_openFrame (b : Browser) (p : Parent) (windowName : string)
    : ProxyObject :=
  getProxyObject b (iframe b (frame_attributes p windowName)).

(** [RENDER_DRIVERS[CONTEXT.IFRAME].open] *)
Definition iframe_open (b : Browser) (proxyFrame : option ProxyObject)
    (p : Parent) : Outcome WindowRef * Parent :=
  match proxyFrame with
  | None => (Thrown (no_frame_error b), p)
  | Some proxy =>
      match get proxy with
      | Resolved frame =>
          match awaitFrameWindow b frame with
          | Resolved win =>
              (Returned (Resolved win),
               register [CancelWatcher frame; DestroyElement frame;
                         CleanUpWindow win]
                 (watchElementForClose frame p))
          | Rejected e => (Returned (Rejected e), p)
          | Pending => (Returned Pending, p)
          end
      | Rejected e => (Returned (Rejected e), p)
      | Pending => (Returned Pending, p)
      end
  end.

(** The attributes [openPrerenderFrame] gives to [iframe]. *)
Definition prerender_frame_attributes (b : Browser) (p : Parent) : Props :=
  spread
    [("name", VStr ("__zoid_prerender_frame__" ++ component_name p ++ "_" ++
                    uniqueID b ++ "__"));
     ("title", VStr ("prerender__" ++ component_name p))]
    (attributes_iframe p).

(** [RENDER_DRIVERS[CONTEXT.IFRAME].openPrerenderFrame] *)
Definition iframe_openPrerenderFrame (b : Browser) (p : Parent) : ProxyObject :=
  getProxyObject b (iframe b (prerender_frame_attributes b p)).

(** [RENDER_DRIVERS[CONTEXT.IFRAME].openPrerender] *)
Definition iframe_openPrerender (b : Browser) (proxyWin : ProxyWindow)
    (proxyPrerenderFrame : option ProxyObject) (p : Parent)
    : Outcome ProxyWindow * Parent :=
  match proxyPrerenderFrame with
  | None => (Thrown (no_frame_error b), p)
  | Some proxy =>
      match get proxy with
      | Resolved prerenderFrame =>
          (Returned
             match awaitFrameWindow b prerenderFrame with
             | Resolved prerenderFrameWindow =>
                 if sameDomain b prerenderFrameWindow
                 then Resolved (toProxyWindow prerenderFrameWindow)
                 else Rejected (domainError b prerenderFrameWindow)
             | Rejected e => Rejected e
             | Pending => Pending
             end,
           register [DestroyElement prerenderFrame] p)
      | Rejected e => (Returned (Rejected e), p)
      | Pending => (Returned Pending, p)
      end
  end.

(** The options [open] of the popup driver gives to [popup]. *)
Definition popup_options (b : Browser) (p : Parent) (windowName : string) : Props :=
  spread
    [("name", VStr windowName);
     ("width", VNum (normalizeDimension b (dimension_width p) (outerWidth b)));
     ("height", VNum (normalizeDimension b (dimension_height p) (outerWidth b)))]
    (attributes_popup p).

(** [RENDER_DRIVERS[CONTEXT.POPUP].open] *)
Definition popup_open (b : Browser) (windowName : string) (p : Parent)
    : Outcome WindowRef * Parent :=
  match popup b (popup_options b p windowName) with
  | inr win => (Returned (Resolved win), register [CloseAndCleanUpWindow win] p)
  | inl e => (Returned (Rejected e), p)
  end.

(** [RENDER_DRIVERS[CONTEXT.POPUP].openPrerender] *)
Definition popup_openPrerender (proxyWin : ProxyWindow) (p : Parent)
    : Outcome ProxyWindow * Parent :=
  (Returned (Resolved proxyWin), p).

(** A browser for examples: a frame [n] below 10 gets the window [n + 100],
    other frames never load; windows below 105 are of the same domain; a
    popup without a name in its options is blocked. *)
Definition sample_browser : Browser :=
  {| awaitFrameWindow :=
       fun frame => if Nat.ltb frame 10 then Resolved (frame + 100) else Pending;
     sameDomain := fun win => Nat.ltb win 105;
     domainError := fun _ => unknown_failure;
     iframe := fun attrs => length attrs;
     getProxyObject := fun frame => {| get := Resolved frame |};
     popup := fun options =>
       match lookup "name" options with
       | Some _ => inr 7
       | None => inl unknown_failure
       end;
     normalizeDimension := fun _ max => max;
     uniqueID := "uid";
     outerWidth := 1024;
     stackOf := fun _ => None |}.

Definition sample_parent (attrs : Props) : Parent :=
  {| component_name := "login";
     dimension_width := "300px";
     dimension_height := "150px";
     attributes_iframe := attrs;
     attributes_popup := attrs;
     clean := [];
     watched := [] |}.

End Drivers.

(** ** Basic facts *)

Open Scope list_scope.

Lemma add_event_active e w :
  activeXComponent (add_event e w) = activeXComponent w.
Proof. reflexivity. Qed.

Lemma plain_Error_add_event e w msg :
  plain_Error (add_event e w) msg = plain_Error w msg.
Proof. reflexivity. Qed.

Lemma messaging_app t u : messaging (t ++ u) = (messaging t ++ messaging u)%list.
Proof. apply filter_app. Qed.

Lemma sent_app t u : sent (t ++ u) = (sent t ++ sent u)%list.
Proof. apply filter_app. Qed.

Lemma hook_calls_app h t u : hook_calls h (t ++ u) = (hook_calls h t ++ hook_calls h u)%list.
Proof. apply filter_app. Qed.

Lemma window_closes_app t u :
  window_closes (t ++ u) = (window_closes t ++ window_closes u)%list.
Proof. apply filter_app. Qed.

(** ** Window resolution *)

(** With the context already taken, [setWindows] throws at once and touches
    nothing. *)
Lemma setWindows_taken s :
  truthy (activeXComponent (window s)) = true ->
  setWindows s =
    (Throw (plain_Error (window s) (multiple_message (tag (this s)))), s).
Proof.
  intros H. unfold setWindows, bind, get_this, get_window. simpl.
  rewrite H. reflexivity.
Qed.

(** [init] when [setWindows] fails: the catch block decides on [standalone]
    alone. *)
Lemma init_catch_block s e s1 :
  setWindows (snd (log init_child s)) = (Throw e, s1) ->
  init s =
    if standalone (this s)
    then (Ok ReturnsUndefined, snd (log child_standalone s1))
    else (Throw e, s1).
Proof.
  intros H. unfold init.
  unfold bind at 1. destruct s as [c w]. simpl.
  unfold bind at 1. simpl.
  unfold bind at 1. unfold try_catch. unfold bind at 1.
  simpl in H. rewrite H.
  destruct (standalone c); reflexivity.
Qed.

(** C1, as stated, fails: a standalone instance attached to a context that
    already holds an instance is initialised without any error; the
    duplicate-attach error of [setWindows] is swallowed by [init]. *)
Lemma taken_standalone_init_returns :
  truthy (activeXComponent (window taken_standalone)) = true /\
  fst (init taken_standalone) = Ok ReturnsUndefined.
Proof. split; reflexivity. Qed.

(** C1, amended.  In a context that already holds an instance, [setWindows]
    of a further instance always throws the duplicate-attach error, whatever
    the tag, and changes nothing; [init] throws that error unless the instance
    is standalone, in which case it returns quietly.  Either way the stored
    instance stays the same and nothing is listened to or sent. *)
Theorem second_attach_in_taken_context s :
  truthy (activeXComponent (window s)) = true ->
  let err := plain_Error (window s) (multiple_message (tag (this s))) in
  setWindows s = (Throw err, s) /\
  fst (init s) = (if standalone (this s) then Ok ReturnsUndefined else Throw err) /\
  activeXComponent (window (snd (init s))) = activeXComponent (window s) /\
  watchers (window (snd (init s))) = watchers (window s) /\
  messaging (trace_of (init s)) = messaging (events (window s)).
Proof.
  intros H err.
  assert (Hset : setWindows s = (Throw err, s)) by now apply setWindows_taken.
  split; [exact Hset|].
  assert (Hlog : setWindows (snd (log init_child s)) =
                 (Throw err, snd (log init_child s))).
  { destruct s as [c w]. apply (setWindows_taken {| this := c; window := add_event (EvLog init_child) w |}). exact H. }
  rewrite (init_catch_block s Hlog).
  destruct s as [c w]; simpl in *.
  unfold trace_of.
  destruct (standalone c); simpl; rewrite ?messaging_app; simpl;
    rewrite ?app_nil_r; auto.
Qed.

Lemma second_attach_in_taken_context_witness :
  setWindows taken_strict =
    (Throw (plain_Error (window taken_strict) (multiple_message "foo")), taken_strict) /\
  fst (init taken_strict) =
    Throw (plain_Error (window taken_strict) (multiple_message "foo")).
Proof.
  destruct (second_attach_in_taken_context taken_strict eq_refl) as (H1 & H2 & _).
  split; [exact H1 | exact H2].
Defined.

(** C2, as stated, fails: with [standalone] set, a tag mismatch is not
    rethrown; [init] returns as if nothing had happened. *)
Lemma standalone_suppresses_tag_mismatch :
  fst (setWindows (snd (log init_child (foo_in_bar true)))) =
    Throw (plain_Error (window (foo_in_bar true)) (mismatch_message "foo" "bar")) /\
  fst (init (foo_in_bar true)) = Ok ReturnsUndefined.
Proof. split; reflexivity. Qed.

(** C2, amended.  A failure of the window resolution in [init] is suppressed
    exactly when the standalone flag is set, whatever the failure is; without
    the flag every failure is rethrown unchanged. *)
Theorem init_resolution_failure s e s1 :
  setWindows (snd (log init_child s)) = (Throw e, s1) ->
  (standalone (this s) = true ->
     init s = (Ok ReturnsUndefined, snd (log child_standalone s1))) /\
  (standalone (this s) = false -> init s = (Throw e, s1)).
Proof.
  intros H. rewrite (init_catch_block s H).
  split; intros ->; reflexivity.
Qed.

Lemma init_resolution_failure_witness :
  init (foo_in_bar false) =
    (Throw (plain_Error (window (foo_in_bar false)) (mismatch_message "foo" "bar")),
     snd (setWindows (snd (log init_child (foo_in_bar false))))).
Proof.
  apply (init_resolution_failure (foo_in_bar false) eq_refl). reflexivity.
Defined.

(** ** The mark of an execution context *)

Lemma keeps_ret A (a : A) : keeps_mark (ret a).
Proof. intros s _. reflexivity. Qed.

Lemma keeps_throw A e : keeps_mark (@throw A e).
Proof. intros s _. reflexivity. Qed.

Lemma keeps_bind A B (m : M A) (k : A -> M B) :
  keeps_mark m -> (forall a, keeps_mark (k a)) -> keeps_mark (bind m k).
Proof.
  intros Hm Hk s H. unfold bind.
  specialize (Hm s H).
  destruct (m s) as [[a|e] s']; simpl in *.
  - rewrite <- Hm. apply Hk. rewrite Hm. exact H.
  - exact Hm.
Qed.

Lemma keeps_try_catch A (m : M A) (h : JsError -> M A) :
  keeps_mark m -> (forall e, keeps_mark (h e)) -> keeps_mark (try_catch m h).
Proof.
  intros Hm Hh s H. unfold try_catch.
  specialize (Hm s H).
  destruct (m s) as [[a|e] s']; simpl in *.
  - exact Hm.
  - rewrite <- Hm. apply Hh. rewrite Hm. exact H.
Qed.

Lemma keeps_get_this : keeps_mark get_this.
Proof. intros s _. reflexivity. Qed.

Lemma keeps_get_window : keeps_mark get_window.
Proof. intros s _. reflexivity. Qed.

Lemma keeps_put_this c : keeps_mark (put_this c).
Proof. intros s _. reflexivity. Qed.

Lemma keeps_update_window f :
  (forall w, activeXComponent (f w) = activeXComponent w) ->
  keeps_mark (update_window f).
Proof. intros Hf s _. apply Hf. Qed.

Lemma keeps_emit e : keeps_mark (emit e).
Proof. now apply keeps_update_window. Qed.

Lemma keeps_drop_watcher t id : keeps_mark (update_window (drop_watcher t id)).
Proof. now apply keeps_update_window. Qed.

Lemma keeps_onCloseWindow t : keeps_mark (onCloseWindow t).
Proof. intros s _. reflexivity. Qed.

Lemma keeps_surroundings pw pcw name : keeps_mark (surroundings pw pcw name).
Proof. now apply keeps_update_window. Qed.

Lemma keeps_setWindows : keeps_mark setWindows.
Proof. intros s H. rewrite (setWindows_taken s H). reflexivity. Qed.

Create HintDb mark.
#[local] Hint Resolve keeps_ret keeps_throw keeps_get_this keeps_get_window
  keeps_put_this keeps_emit keeps_drop_watcher keeps_onCloseWindow
  keeps_surroundings
  keeps_setWindows : mark.

(** Walks through an operation written with [bind], [try_catch] and case
    distinctions. *)
Ltac walk :=
  repeat first
    [ solve [auto with mark]
    | apply keeps_bind; [| intros ?]
    | apply keeps_try_catch; [| intros ?]
    | match goal with
      | |- keeps_mark (if ?b then _ else _) => destruct b
      | |- keeps_mark (match ?x with _ => _ end) => destruct x
      end ].

Lemma keeps_log l : keeps_mark (log l).
Proof. unfold log. walk. Qed.

Lemma keeps_call h arg : keeps_mark (call h arg).
Proof. unfold call. walk. Qed.

Lemma keeps_new_Error msg : keeps_mark (new_Error msg).
Proof. unfold new_Error. walk. Qed.

#[local] Hint Resolve keeps_log keeps_call keeps_new_Error : mark.

Lemma keeps_sendToParent name data : keeps_mark (sendToParent name data).
Proof. unfold sendToParent, getParentWindow, postRobot_send. walk. Qed.

Lemma keeps_sendToParentComponent name data :
  keeps_mark (sendToParentComponent name data).
Proof. unfold sendToParentComponent, getParentComponentWindow, postRobot_send. walk. Qed.

#[local] Hint Resolve keeps_sendToParent keeps_sendToParentComponent : mark.

Lemma keeps_close err : keeps_mark (close err).
Proof. unfold close. walk. Qed.

#[local] Hint Resolve keeps_close : mark.

Lemma keeps_init : keeps_mark init.
Proof.
  unfold init, getParentWindow, getParentComponentWindow, listen. walk.
Qed.

Lemma keeps_window_closed t : keeps_mark (window_closed t).
Proof.
  unfold window_closed. walk.
  unfold watch_callback, parent_window_closed_callback,
      parent_component_window_closed_callback. walk.
Qed.

#[local] Hint Resolve keeps_init keeps_window_closed : mark.

Lemma keeps_perform a : keeps_mark (perform a).
Proof.
  destruct a; simpl;
    unfold error, listener_PROPS, listener_CLOSE, init_then, init_catch,
      extend_props, set_context, getParentWindow; walk.
Qed.

Lemma run_keeps_mark l : forall s,
  truthy (activeXComponent (window s)) = true ->
  activeXComponent (window (run l s)) = activeXComponent (window s).
Proof.
  induction l as [|a l IH]; intros s H; simpl.
  - reflexivity.
  - unfold run in IH. rewrite IH.
    + apply keeps_perform. exact H.
    + rewrite (keeps_perform a s H). exact H.
Qed.

(** From a free context, [setWindows] leaves the mark of its instance behind,
    whether it succeeds or throws. *)
Lemma setWindows_marks s :
  activeXComponent (window s) = None ->
  activeXComponent (window (snd (setWindows s))) = Some (cid (this s)).
Proof.
  intros H. destruct s as [c [a pw pcw wn cs ws ev]]. simpl in H. subst a.
  unfold setWindows, bind; simpl.
  destruct pw as [pw|]; simpl; [|reflexivity].
  destruct pcw as [pcw|]; simpl; [|reflexivity].
  unfold parseWindowName, bind; simpl.
  destruct wn as [e|wp]; simpl; [reflexivity|].
  destruct (String.eqb (win_tag wp) (tag c)); simpl; [|reflexivity].
  unfold watchForClose, bind; simpl.
  destruct (Nat.eqb pcw pw); reflexivity.
Qed.

(** The three ways [setWindows] fails in a free context. *)
Lemma setWindows_failures s :
  activeXComponent (window s) = None ->
  (parentWindow (window s) = None ->
     fst (setWindows s) =
       Throw (plain_Error (window s) (no_parent_message (tag (this s))))) /\
  (truthy (parentWindow (window s)) = true ->
   parentComponentWindow (window s) = None ->
     fst (setWindows s) =
       Throw (plain_Error (window s) (no_parent_component_message (tag (this s))))) /\
  (forall wp,
     truthy (parentWindow (window s)) = true ->
     truthy (parentComponentWindow (window s)) = true ->
     windowName (window s) = inr wp ->
     String.eqb (win_tag wp) (tag (this s)) = false ->
     setWindows s =
       (Throw (plain_Error (window s) (mismatch_message (tag (this s)) (win_tag wp))),
        {| this := this s;
           window := add_event (EvLog child_win_props)
                       (mark_active (cid (this s)) (window s)) |})).
Proof.
  intros H. destruct s as [c [a pw pcw wn cs ws ev]]. simpl in *. subst a.
  repeat split.
  - intros ->. reflexivity.
  - intros Hpw ->. destruct pw; [reflexivity | discriminate].
  - intros wp Hpw Hpcw -> Htag.
    destruct pw; [|discriminate]. destruct pcw; [|discriminate].
    unfold setWindows, bind; simpl.
    unfold parseWindowName, bind; simpl.
    rewrite Htag. reflexivity.
Qed.

(** C10, as stated, fails: after a resolution that failed for want of a
    parent window, a later standalone instance is initialised without any
    error; its duplicate-attach error never leaves [init]. *)
Lemma orphan_then_standalone_init_returns :
  fst (init (orphan false)) =
    Throw (plain_Error (window (orphan false)) (no_parent_message "foo")) /\
  activeXComponent (window (snd (init (orphan false)))) = Some 1 /\
  fst (init {| this := sample_child 2 "bar" true None;
               window := window (snd (init (orphan false))) |}) =
    Ok ReturnsUndefined.
Proof. repeat split; reflexivity. Qed.

(** C10, amended.  [setWindows] stores its instance in the context before it
    looks at the parent windows and the decoded tag, and a later throw leaves
    it there: after any failed resolution in a free context, and whatever
    happens in that context afterwards, [setWindows] of every later instance
    throws the duplicate-attach error; [init] of that instance throws it too
    unless the instance is standalone. *)
Theorem failed_resolution_leaves_mark s e s1 :
  activeXComponent (window s) = None ->
  setWindows s = (Throw e, s1) ->
  activeXComponent (window s1) = Some (cid (this s)) /\
  forall (l : list Action) (c : ChildComponent),
    let s2 := {| this := c; window := window (run l s1) |} in
    let err := plain_Error (window s2) (multiple_message (tag c)) in
    setWindows s2 = (Throw err, s2) /\
    fst (init s2) = (if standalone c then Ok ReturnsUndefined else Throw err).
Proof.
  intros Hfree Hfail.
  assert (Hmark : activeXComponent (window s1) = Some (cid (this s))).
  { pose proof (setWindows_marks s Hfree) as H. rewrite Hfail in H. exact H. }
  split; [exact Hmark|].
  intros l c s2 err.
  assert (Hs2 : truthy (activeXComponent (window s2)) = true).
  { unfold s2. simpl. rewrite run_keeps_mark; rewrite Hmark; reflexivity. }
  split.
  - apply setWindows_taken. exact Hs2.
  - assert (Hlog : setWindows (snd (log init_child s2)) =
                   (Throw err, snd (log init_child s2))).
    { apply (setWindows_taken (snd (log init_child s2))). exact Hs2. }
    rewrite (init_catch_block s2 Hlog). simpl.
    destruct (standalone c); reflexivity.
Qed.

Lemma failed_resolution_leaves_mark_witness :
  activeXComponent (window (snd (setWindows (orphan false)))) = Some 1 /\
  fst (init {| this := sample_child 2 "bar" false None;
               window := window
                 (run [DoClose None; DoSurroundings (Some 10) (Some 10) (inr {| win_tag := "bar" |})]
                    (snd (setWindows (orphan false)))) |}) =
    Throw (plain_Error (window (orphan false)) (multiple_message "bar")).
Proof.
  destruct (failed_resolution_leaves_mark (orphan false) eq_refl eq_refl)
    as [H1 H2].
  split; [exact H1|].
  exact (proj2 (H2 [DoClose None; DoSurroundings (Some 10) (Some 10) (inr {| win_tag := "bar" |})]
                  (sample_child 2 "bar" false None))).
Defined.

(** ** Hooks *)

Lemma call_returns h arg s :
  hook_of (this s) h arg (events (window s)) = None ->
  call h arg s =
    (Ok tt, {| this := this s;
               window := add_event (EvHook h arg (props (this s))) (window s) |}).
Proof.
  intros H. unfold call, bind; simpl. rewrite H. reflexivity.
Qed.

Lemma call_escapes h arg s e :
  hook_of (this s) h arg (events (window s)) = Some e ->
  call h arg s =
    (Throw e, {| this := this s;
                 window := add_event (EvHook h arg (props (this s))) (window s) |}).
Proof.
  intros H. unfold call, bind; simpl. rewrite H. reflexivity.
Qed.

(** ** Closing *)

(** One [close(err)] whose hook returns: the hook is called, then CLOSE goes
    to the parent window, in whatever state the instance is. *)
Lemma close_step err s :
  onClose (this s) err (events (window s) ++ [EvLog close_child]) = None ->
  close err s =
    (Ok tt,
     {| this := this s;
        window :=
          add_event (EvSend (parentWindow (window s)) CLOSE NoData)
            (add_event (EvLog (send_to_parent CLOSE))
               (add_event (EvHook OnClose err (props (this s)))
                  (add_event (EvLog close_child) (window s)))) |}).
Proof.
  intros H. unfold close. unfold bind at 1. simpl.
  unfold bind at 1.
  rewrite call_returns by exact H. reflexivity.
Qed.



(** ** Resolution against the decoded tag *)

(** With a decoded tag other than the component's, [setWindows] has no way
    through: it throws, and what it leaves in the trace is neither a listener
    nor a post-message. *)
Lemma setWindows_wrong_tag s wp :
  windowName (window s) = inr wp ->
  win_tag wp <> tag (this s) ->
  exists e s1,
    setWindows s = (Throw e, s1) /\
    messaging (events (window s1)) = messaging (events (window s)) /\
    watchers (window s1) = watchers (window s).
Proof.
  intros Hname Hneq.
  apply String.eqb_neq in Hneq.
  destruct (activeXComponent (window s)) as [a|] eqn:Ha.
  - exists (plain_Error (window s) (multiple_message (tag (this s)))), s.
    split; [|split; reflexivity].
    apply setWindows_taken. rewrite Ha. reflexivity.
  - destruct s as [c [a pw pcw wn cs ws ev]]. simpl in *. subst a wn.
    destruct pw as [pw|]; [destruct pcw as [pcw|]|].
    + eexists. eexists. split.
      * apply (proj2 (proj2 (setWindows_failures
                 {| this := c;
                    window := {| activeXComponent := None;
                                 parentWindow := Some pw;
                                 parentComponentWindow := Some pcw;
                                 windowName := inr wp;
                                 captureStack := cs;
                                 watchers := ws;
                                 events := ev |} |} eq_refl)) wp);
          auto.
      * simpl. rewrite messaging_app. simpl. rewrite app_nil_r. auto.
    + eexists. eexists. split; [reflexivity|]. simpl. auto.
    + eexists. eexists. split; [reflexivity|]. simpl. auto.
Qed.

Lemma substring_at_start part post :
  substring 0 (String.length part) (part ++ post) = part.
Proof.
  induction part as [|a part IH]; simpl.
  - destruct post; reflexivity.
  - rewrite IH. reflexivity.
Qed.

Lemma substring_after pre part post :
  substring (String.length pre) (String.length part) (pre ++ part ++ post) = part.
Proof.
  induction pre as [|a pre IH]; simpl.
  - apply substring_at_start.
  - exact IH.
Qed.

(** A text mentions every part it is put together from. *)
Lemma mentions_part pre part post :
  mentions part (pre ++ part ++ post) = true.
Proof.
  unfold mentions.
  destruct (String.index 0 part (pre ++ part ++ post)) as [m|] eqn:E;
    [reflexivity|].
  exfalso. destruct part as [|a part].
  - apply index_correct4 in E. lia.
  - apply (index_correct3 0 (String.length pre) _ _ E).
    + discriminate.
    + lia.
    + apply substring_after.
Qed.

Lemma string_append_assoc (a b c : string) :
  ((a ++ b) ++ c = a ++ b ++ c)%string.
Proof.
  induction a as [|x a IH]; simpl.
  - reflexivity.
  - rewrite IH. reflexivity.
Qed.

Lemma mismatch_message_mentions t found :
  mentions t (mismatch_message t found) = true /\
  mentions found (mismatch_message t found) = true.
Proof.
  unfold mismatch_message. split.
  - apply (mentions_part "[" t).
  - assert (H : ("[" ++ t ++ "] Parent is " ++ found ++ " - can not attach " ++ t
                 = ("[" ++ t ++ "] Parent is ") ++ found ++ " - can not attach " ++ t)%string).
    { simpl. f_equal. rewrite string_append_assoc. reflexivity. }
    rewrite H. apply mentions_part.
Qed.

(** C4, as stated, fails: a non-standalone "foo" instance in a window whose
    name decodes to "bar" but which has no parent window is stopped by the
    check for the parent window; the error it throws names "foo" only. *)
Lemma orphaned_wrong_tag_names_one_tag :
  windowName (window foo_in_orphaned_bar) = inr {| win_tag := "bar" |} /\
  standalone (this foo_in_orphaned_bar) = false /\
  fst (init foo_in_orphaned_bar) =
    Throw (plain_Error (window foo_in_orphaned_bar)
             "[foo] Can not find parent window") /\
  mentions "bar" "[foo] Can not find parent window" = false.
Proof. repeat split; reflexivity. Qed.

(** C4, amended.  A non-standalone instance whose window name decodes to
    another tag does not get through [init]: an error is thrown, and no
    listener has been registered and no post-message sent by then.  When the
    context is free and both parent windows are found, the error is the one
    whose message mentions both tags.  Otherwise the error is the one of the
    check that comes first (context taken, no parent window, no parent
    component window), which names the tag of the component only. *)
Theorem wrong_tag_throws_before_messaging s wp :
  standalone (this s) = false ->
  windowName (window s) = inr wp ->
  win_tag wp <> tag (this s) ->
  (exists e, fst (init s) = Throw e) /\
  messaging (trace_of (init s)) = messaging (events (window s)) /\
  (activeXComponent (window s) = None ->
   truthy (parentWindow (window s)) = true ->
   truthy (parentComponentWindow (window s)) = true ->
   exists e,
     fst (init s) = Throw e /\
     isIntegrationError e = false /\
     message e =
       ("[" ++ tag (this s) ++ "] Parent is " ++ win_tag wp ++
        " - can not attach " ++ tag (this s))%string /\
     mentions (tag (this s)) (message e) = true /\
     mentions (win_tag wp) (message e) = true) /\
  (truthy (activeXComponent (window s)) = true ->
   fst (init s) =
     Throw (plain_Error (window s) (multiple_message (tag (this s))))) /\
  (activeXComponent (window s) = None ->
   parentWindow (window s) = None ->
   fst (init s) =
     Throw (plain_Error (window s) (no_parent_message (tag (this s))))) /\
  (activeXComponent (window s) = None ->
   truthy (parentWindow (window s)) = true ->
   parentComponentWindow (window s) = None ->
   fst (init s) =
     Throw (plain_Error (window s) (no_parent_component_message (tag (this s))))).
Proof.
  intros Hstrict Hname Hneq.
  destruct (@setWindows_wrong_tag (snd (log init_child s)) wp) as (e & s1 & Hset & Hmsg & _).
  { destruct s; exact Hname. }
  { destruct s; exact Hneq. }
  pose proof (init_catch_block s Hset) as Hinit. rewrite Hstrict in Hinit.
  split; [exists e; rewrite Hinit; reflexivity|].
  split.
  { unfold trace_of. rewrite Hinit. simpl. rewrite Hmsg.
    destruct s as [c w]. simpl. rewrite messaging_app. simpl. apply app_nil_r. }
  rewrite Hinit. cbn [fst].
  split; [|split; [|split]].
  - intros Hfree Hpw Hpcw.
    apply String.eqb_neq in Hneq.
    pose proof (proj2 (proj2 (setWindows_failures (snd (log init_child s))
                  ltac:(destruct s; exact Hfree))) wp) as Hmis.
    destruct s as [c w]. simpl in *.
    specialize (Hmis Hpw Hpcw Hname Hneq).
    rewrite Hmis in Hset. inversion Hset; subst e s1.
    eexists. split; [reflexivity|].
    split; [reflexivity|]. split; [reflexivity|].
    apply mismatch_message_mentions.
  - intros Htaken.
    assert (Ht : truthy (activeXComponent (window (snd (log init_child s)))) = true)
      by (destruct s; exact Htaken).
    rewrite (setWindows_taken _ Ht) in Hset. inversion Hset.
    destruct s; reflexivity.
  - intros Hfree Hpw.
    pose proof (proj1 (setWindows_failures (snd (log init_child s))
                  ltac:(destruct s; exact Hfree))
                  ltac:(destruct s; exact Hpw)) as Hf.
    rewrite Hset in Hf. inversion Hf. destruct s; reflexivity.
  - intros Hfree Hpw Hpcw.
    pose proof (proj1 (proj2 (setWindows_failures (snd (log init_child s))
                  ltac:(destruct s; exact Hfree)))
                  ltac:(destruct s; exact Hpw)
                  ltac:(destruct s; exact Hpcw)) as Hf.
    rewrite Hset in Hf. inversion Hf. destruct s; reflexivity.
Qed.

Lemma wrong_tag_throws_before_messaging_witness :
  (exists e, fst (init (foo_in_bar false)) = Throw e) /\
  messaging (trace_of (init (foo_in_bar false))) = [] /\
  exists e,
    fst (init (foo_in_bar false)) = Throw e /\
    isIntegrationError e = false /\
    message e = "[foo] Parent is bar - can not attach foo"%string /\
    mentions "foo" (message e) = true /\
    mentions "bar" (message e) = true.
Proof.
  assert (Hneq : win_tag {| win_tag := "bar" |} <> tag (this (foo_in_bar false)))
    by (simpl; discriminate).
  destruct (wrong_tag_throws_before_messaging (foo_in_bar false) eq_refl eq_refl Hneq)
    as (H1 & H2 & H3 & _).
  split; [exact H1|]. split; [exact H2|].
  exact (H3 eq_refl eq_refl eq_refl).
Defined.

(** ** Standalone *)

(** Without a parent component window [setWindows] cannot succeed; it leaves
    the instance as it was and neither listens nor sends. *)
Lemma setWindows_no_parent_component s :
  parentComponentWindow (window s) = None ->
  exists e s1,
    setWindows s = (Throw e, s1) /\
    this s1 = this s /\
    messaging (events (window s1)) = messaging (events (window s)) /\
    watchers (window s1) = watchers (window s).
Proof.
  intros Hpcw.
  destruct (activeXComponent (window s)) as [a|] eqn:Ha.
  - exists (plain_Error (window s) (multiple_message (tag (this s)))), s.
    split; [|repeat split; reflexivity].
    apply setWindows_taken. rewrite Ha. reflexivity.
  - destruct s as [c [a pw pcw wn cs ws ev]]. simpl in *. subst a pcw.
    destruct pw as [pw|]; eexists; eexists; (split; [reflexivity|]); simpl; auto.
Qed.

Lemma init_standalone_no_parent_component s :
  standalone (this s) = true ->
  parentComponentWindow (window s) = None ->
  exists s',
    init s = (Ok ReturnsUndefined, s') /\
    this s' = this s /\
    messaging (events (window s')) = messaging (events (window s)) /\
    watchers (window s') = watchers (window s).
Proof.
  intros Halone Hpcw.
  destruct (@setWindows_no_parent_component (snd (log init_child s)))
    as (e & s1 & Hset & Hthis & Hmsg & Hwatch).
  { destruct s; exact Hpcw. }
  pose proof (init_catch_block s Hset) as Hinit. rewrite Halone in Hinit.
  exists (snd (log child_standalone s1)). split; [exact Hinit|].
  destruct s as [c w]; destruct s1 as [c1 w1]. simpl in *.
  rewrite messaging_app in Hmsg. simpl in Hmsg. rewrite app_nil_r in Hmsg.
  rewrite messaging_app. simpl. rewrite app_nil_r. auto.
Qed.

(** C7.  A standalone instance, constructed in a context without a parent
    component window and then initialised: [init] returns without throwing,
    no listener is registered, no post-message is sent, no window is watched,
    and the instance still has the props its constructor seeded from the
    defaults. *)
Theorem standalone_init_is_silent
    (tryCatch : Options -> Callback -> option bool -> Callback)
    (normalizeProps : string -> Props -> Props)
    (id : nat) (component_tag : string) (options : Options) (w : Window) :
  opt_standalone options = true ->
  parentComponentWindow w = None ->
  let s0 := construct tryCatch normalizeProps id component_tag options w in
  exists s',
    init s0 = (Ok ReturnsUndefined, s') /\
    messaging (events (window s')) = messaging (events w) /\
    watchers (window s') = watchers w /\
    this s' = this s0 /\
    props (this s') =
      normalizeProps component_tag (or_else (opt_defaultProps options) []).
Proof.
  intros Halone Hpcw s0.
  destruct (@init_standalone_no_parent_component s0) as (s' & Hinit & Hthis & Hmsg & Hwatch).
  - exact Halone.
  - exact Hpcw.
  - exists s'. split; [exact Hinit|].
    split.
    + rewrite Hmsg. unfold s0. simpl. rewrite messaging_app. simpl. apply app_nil_r.
    + split; [exact Hwatch|]. split; [exact Hthis|]. rewrite Hthis. reflexivity.
Qed.

Lemma standalone_init_is_silent_witness :
  exists s',
    init (construct bare_tryCatch bare_normalizeProps 1 "foo" standalone_options
            (sample_window None None None "")) = (Ok ReturnsUndefined, s') /\
    messaging (events (window s')) = [] /\
    props (this s') = [("x", VNum 1); ("y", VNum 1)].
Proof.
  destruct (standalone_init_is_silent bare_tryCatch bare_normalizeProps 1 "foo"
              standalone_options (sample_window None None None "")
              eq_refl eq_refl) as (s' & H1 & H2 & _ & _ & H5).
  exists s'. split; [exact H1|]. split; [exact H2 | exact H5].
Defined.

(** ** Watching the parent windows *)

Lemma window_closed_unwatched t s :
  existsb (is_watcher t (cid (this s))) (watchers (window s)) = false ->
  window_closed t s = (Ok tt, s).
Proof.
  intros H. unfold window_closed, bind; simpl. rewrite H. reflexivity.
Qed.

Lemma window_closed_watched t s :
  existsb (is_watcher t (cid (this s))) (watchers (window s)) = true ->
  window_closed t s =
    watch_callback t
      {| this := this s; window := drop_watcher t (cid (this s)) (window s) |}.
Proof.
  intros H. unfold window_closed, bind; simpl. rewrite H. reflexivity.
Qed.

(** The callback for the parent window, by the outcome of the hook. *)
Lemma parent_window_closed_callback_trace s :
  let err := plain_Error (window s) (parent_closed_message (tag (this s))) in
  let r := parent_window_closed_callback s in
  let called := [EvLog parent_window_closed;
                 EvHook OnClose (Some err) (props (this s))] in
  match onClose (this s) (Some err) (events (window s) ++ [EvLog parent_window_closed]) with
  | None =>
      fst r = Ok tt /\
      trace_of r =
        events (window s) ++ called ++
        match context (this s) with
        | Some POPUP => [EvWindowClose]
        | _ => []
        end
  | Some e =>
      fst r = Throw e /\ trace_of r = events (window s) ++ called
  end.
Proof.
  intros err r called. subst r called.
  unfold parent_window_closed_callback, trace_of, call, bind.
  destruct s as [c w]. simpl. rewrite !plain_Error_add_event.
  simpl in err. fold err.
  destruct (onClose c (Some err) (events w ++ [EvLog parent_window_closed])) as [e|].
  - simpl. rewrite <- app_assoc. split; reflexivity.
  - simpl. destruct (context c) as [[|]|]; simpl; rewrite <- ?app_assoc;
      split; reflexivity.
Qed.

(** C8, as stated, fails: a popup instance whose [this.onClose] lets an
    exception escape is told that its parent window was closed and does not
    call [window.close()]; the exception leaves the callback first. *)
Lemma popup_is_not_closed_when_onClose_throws :
  context (this (touchy_watching (Some POPUP))) = Some POPUP /\
  existsb (is_watcher WatchParent (cid (this (touchy_watching (Some POPUP)))))
    (watchers (window (touchy_watching (Some POPUP)))) = true /\
  fst (window_closed WatchParent (touchy_watching (Some POPUP))) =
    Throw unknown_failure /\
  window_closes (trace_of (window_closed WatchParent (touchy_watching (Some POPUP)))) = [] /\
  length (hook_calls OnClose
            (trace_of (window_closed WatchParent (touchy_watching (Some POPUP))))) = 1.
Proof. repeat split; reflexivity. Qed.

(** C8, amended.  When the watch of the parent window fires, [this.onClose]
    is called with an error that says the parent window was closed.  When
    that call returns, [window.close()] follows exactly when the context type
    of the instance is popup; when it lets an exception escape, the callback
    ends with that exception and [window.close()] is not called.  An instance
    of any other context type never calls [window.close()] here. *)
Theorem parent_window_closure s :
  existsb (is_watcher WatchParent (cid (this s))) (watchers (window s)) = true ->
  let err := plain_Error (window s) (parent_closed_message (tag (this s))) in
  let r := window_closed WatchParent s in
  hook_calls OnClose (trace_of r) =
    hook_calls OnClose (events (window s)) ++
    [EvHook OnClose (Some err) (props (this s))] /\
  message err = ("[" ++ tag (this s) ++ "] parent window was closed")%string /\
  (onClose (this s) (Some err) (events (window s) ++ [EvLog parent_window_closed]) = None ->
   fst r = Ok tt /\
   (window_closes (trace_of r) = window_closes (events (window s)) ++ [EvWindowClose]
    <-> context (this s) = Some POPUP)) /\
  (context (this s) <> Some POPUP ->
   window_closes (trace_of r) = window_closes (events (window s))) /\
  (forall e,
     onClose (this s) (Some err) (events (window s) ++ [EvLog parent_window_closed]) = Some e ->
     fst r = Throw e /\
     window_closes (trace_of r) = window_closes (events (window s))).
Proof.
  intros Hwatch err r. subst r.
  rewrite (window_closed_watched _ _ Hwatch). cbn [watch_callback].
  pose proof (parent_window_closed_callback_trace
                {| this := this s;
                   window := drop_watcher WatchParent (cid (this s)) (window s) |})
    as Hcb.
  cbv zeta in Hcb. simpl in Hcb.
  assert (Herr : plain_Error (drop_watcher WatchParent (cid (this s)) (window s))
                   (parent_closed_message (tag (this s))) = err) by reflexivity.
  rewrite Herr in Hcb. clear Herr.
  set (r := parent_window_closed_callback _) in *.
  destruct (onClose (this s) (Some err)
              (events (window s) ++ [EvLog parent_window_closed])) as [e|] eqn:Hhook;
    destruct Hcb as [Hfst Htrace]; rewrite Htrace.
  - split; [|split; [reflexivity|split; [|split]]].
    + rewrite hook_calls_app. reflexivity.
    + intros H. discriminate H.
    + intros _. rewrite window_closes_app. simpl. apply app_nil_r.
    + intros e' H. inversion H; subst e'. split; [exact Hfst|].
      rewrite window_closes_app. simpl. apply app_nil_r.
  - split; [|split; [reflexivity|split; [|split]]];
      [| | |intros e' H; discriminate H].
    + rewrite !hook_calls_app. simpl.
      destruct (context (this s)) as [[|]|]; simpl; rewrite ?app_nil_r; reflexivity.
    + intros _. split; [exact Hfst|].
      rewrite !window_closes_app. simpl.
      destruct (context (this s)) as [[|]|]; simpl; rewrite ?app_nil_r;
        split; intros H; try reflexivity; try discriminate;
        exfalso; revert H; generalize (window_closes (events (window s)));
        intros l H; apply (f_equal (@length _)) in H;
        rewrite length_app in H; simpl in H; lia.
    + intros Hctx. rewrite !window_closes_app. simpl.
      destruct (context (this s)) as [[|]|]; simpl; rewrite ?app_nil_r;
        try reflexivity. congruence.
Qed.

Lemma parent_window_closure_witness :
  fst (window_closed WatchParent (foo_watching (Some POPUP))) = Ok tt /\
  window_closes (trace_of (window_closed WatchParent (foo_watching (Some POPUP)))) =
    [EvWindowClose] /\
  window_closes (trace_of (window_closed WatchParent (foo_watching (Some IFRAME)))) = [].
Proof.
  destruct (parent_window_closure (foo_watching (Some POPUP)) eq_refl)
    as (_ & _ & Hpopup & _ & _).
  destruct (Hpopup eq_refl) as [Hok Hiff].
  destruct (parent_window_closure (foo_watching (Some IFRAME)) eq_refl)
    as (_ & _ & _ & Hframe & _).
  split; [exact Hok|]. split.
  - apply (proj2 Hiff). reflexivity.
  - apply Hframe. discriminate.
Defined.

(** What [watchForClose] registers. *)
Lemma watchForClose_watchers s :
  watchers (window (snd (watchForClose s))) =
    watchers (window s) ++ [(WatchParent, cid (this s))] ++
    (if truthy (parentComponentWindow (window s)) &&
        differ (parentComponentWindow (window s)) (parentWindow (window s))
     then [(WatchParentComponent, cid (this s))]
     else []).
Proof.
  destruct s as [c w].
  unfold watchForClose, bind, getParentComponentWindow, getParentWindow,
    get_window, ret, onCloseWindow, get_this, bind. simpl.
  destruct (truthy (parentComponentWindow w) &&
            differ (parentComponentWindow w) (parentWindow w)); simpl.
  - rewrite <- app_assoc. reflexivity.
  - reflexivity.
Qed.

(** The callback for the parent component window, when the hook returns. *)
Lemma parent_component_window_closed_callback_returns s :
  let err := plain_Error (window s) (parent_component_closed_message (tag (this s))) in
  onClose (this s) (Some err)
    (events (window s) ++ [EvLog parent_component_window_closed; EvLog close_child]) = None ->
  parent_component_window_closed_callback s =
    (Ok tt,
     {| this := this s;
        window :=
          add_event (EvSend (parentWindow (window s)) CLOSE NoData)
            (add_event (EvLog (send_to_parent CLOSE))
               (add_event (EvHook OnClose (Some err) (props (this s)))
                  (add_event (EvLog close_child)
                     (add_event (EvLog parent_component_window_closed)
                        (window s))))) |}).
Proof.
  intros err H.
  unfold parent_component_window_closed_callback.
  unfold bind at 1. simpl. unfold bind at 1. simpl. unfold bind at 1. simpl.
  rewrite plain_Error_add_event. destruct s as [c w]. simpl in *. fold err.
  rewrite close_step.
  - reflexivity.
  - simpl. rewrite <- app_assoc. exact H.
Qed.

(** The callback for the parent component window, when the hook lets an
    exception escape. *)
Lemma parent_component_window_closed_callback_escapes s e :
  let err := plain_Error (window s) (parent_component_closed_message (tag (this s))) in
  onClose (this s) (Some err)
    (events (window s) ++ [EvLog parent_component_window_closed; EvLog close_child]) = Some e ->
  parent_component_window_closed_callback s =
    (Throw e,
     {| this := this s;
        window :=
          add_event (EvHook OnClose (Some err) (props (this s)))
            (add_event (EvLog close_child)
               (add_event (EvLog parent_component_window_closed)
                  (window s))) |}).
Proof.
  intros err H. destruct s as [c w]. simpl in *.
  unfold parent_component_window_closed_callback, close, call, bind. simpl.
  rewrite !plain_Error_add_event. fold err.
  rewrite <- app_assoc. simpl. rewrite H. reflexivity.
Qed.

(** C9, as stated, fails: an iframe instance whose parent component window is
    another window than its parent window, and whose [this.onClose] lets an
    exception escape, sends no CLOSE when the parent component window goes
    away; the exception leaves [close()] first. *)
Lemma no_CLOSE_when_onClose_throws :
  existsb (is_watcher WatchParentComponent (cid (this (touchy_watching (Some IFRAME)))))
    (watchers (window (touchy_watching (Some IFRAME)))) = true /\
  fst (window_closed WatchParentComponent (touchy_watching (Some IFRAME))) =
    Throw unknown_failure /\
  sent (trace_of (window_closed WatchParentComponent (touchy_watching (Some IFRAME)))) = [] /\
  length (hook_calls OnClose
            (trace_of (window_closed WatchParentComponent
                         (touchy_watching (Some IFRAME))))) = 1.
Proof. repeat split; reflexivity. Qed.

(** C9, amended.  [watchForClose] puts a watch on the parent component window
    only if there is one and it is not the parent window; without that watch
    nothing happens when the window goes away.  When the watch fires,
    [this.onClose] is called with an error that says the parent component
    window was closed, whatever the context type.  When that call returns,
    CLOSE is then sent to the parent window, and the context type plays no
    part in it; when the call lets an exception escape, the close ends with
    that exception and no CLOSE is sent. *)
Theorem parent_component_window_closure s :
  let id := cid (this s) in
  let pw := parentWindow (window s) in
  let pcw := parentComponentWindow (window s) in
  let err := plain_Error (window s) (parent_component_closed_message (tag (this s))) in
  watchers (window (snd (watchForClose s))) =
    watchers (window s) ++ [(WatchParent, id)] ++
    (if truthy pcw && differ pcw pw then [(WatchParentComponent, id)] else []) /\
  (existsb (is_watcher WatchParentComponent id) (watchers (window s)) = false ->
   window_closed WatchParentComponent s = (Ok tt, s)) /\
  (existsb (is_watcher WatchParentComponent id) (watchers (window s)) = true ->
   onClose (this s) (Some err)
     (events (window s) ++ [EvLog parent_component_window_closed; EvLog close_child]) = None ->
   fst (window_closed WatchParentComponent s) = Ok tt /\
   trace_of (window_closed WatchParentComponent s) =
     events (window s) ++
     [EvLog parent_component_window_closed;
      EvLog close_child;
      EvHook OnClose (Some err) (props (this s));
      EvLog (send_to_parent CLOSE);
      EvSend pw CLOSE NoData]) /\
  (existsb (is_watcher WatchParentComponent id) (watchers (window s)) = true ->
   hook_calls OnClose (trace_of (window_closed WatchParentComponent s)) =
     hook_calls OnClose (events (window s)) ++
     [EvHook OnClose (Some err) (props (this s))] /\
   forall e,
     onClose (this s) (Some err)
       (events (window s) ++ [EvLog parent_component_window_closed; EvLog close_child]) = Some e ->
     fst (window_closed WatchParentComponent s) = Throw e /\
     sent (trace_of (window_closed WatchParentComponent s)) = sent (events (window s))).
Proof.
  intros id pw pcw err.
  split; [apply watchForClose_watchers|].
  split; [apply window_closed_unwatched|].
  split.
  - intros Hwatch Hhook.
    rewrite (window_closed_watched _ _ Hwatch). cbn [watch_callback].
    rewrite parent_component_window_closed_callback_returns.
    + unfold trace_of. simpl. rewrite <- !app_assoc. split; reflexivity.
    + exact Hhook.
  - intros Hwatch.
    rewrite (window_closed_watched _ _ Hwatch). cbn [watch_callback].
    set (s0 := {| this := this s;
                  window := drop_watcher WatchParentComponent (cid (this s)) (window s) |}).
    assert (Hesc : forall e,
              onClose (this s) (Some err)
                (events (window s) ++
                 [EvLog parent_component_window_closed; EvLog close_child]) = Some e ->
              parent_component_window_closed_callback s0 =
                (Throw e,
                 {| this := this s;
                    window :=
                      add_event (EvHook OnClose (Some err) (props (this s)))
                        (add_event (EvLog close_child)
                           (add_event (EvLog parent_component_window_closed)
                              (window s0))) |})).
    { intros e He. apply (parent_component_window_closed_callback_escapes s0). exact He. }
    destruct (onClose (this s) (Some err)
                (events (window s) ++
                 [EvLog parent_component_window_closed; EvLog close_child]))
      as [e|] eqn:Hhook.
    + rewrite (Hesc e eq_refl). unfold trace_of. simpl.
      rewrite !hook_calls_app, !sent_app. simpl. rewrite !app_nil_r.
      split; [reflexivity|].
      intros e' He. inversion He. split; reflexivity.
    + rewrite (parent_component_window_closed_callback_returns s0)
        by exact Hhook.
      unfold trace_of. simpl.
      rewrite !hook_calls_app. simpl. rewrite !app_nil_r.
      split; [reflexivity|]. intros e' He. discriminate He.
Qed.

Lemma parent_component_window_closure_witness :
  watchers (window (foo_watching (Some IFRAME))) =
    [(WatchParent, 1); (WatchParentComponent, 1)] /\
  sent (trace_of (window_closed WatchParentComponent (foo_watching (Some IFRAME)))) =
    [EvSend (Some 10) CLOSE NoData] /\
  length (hook_calls OnClose
    (trace_of (window_closed WatchParentComponent (foo_watching (Some IFRAME))))) = 1.
Proof.
  destruct (parent_component_window_closure (foo_delegated (Some IFRAME)))
    as (Hwatch & _ & _).
  destruct (parent_component_window_closure (foo_watching (Some IFRAME)))
    as (_ & _ & Hfire & _).
  destruct (Hfire eq_refl eq_refl) as [_ Htrace].
  split; [exact Hwatch|].
  rewrite Htrace. split; reflexivity.
Defined.

(** ** Closing again *)









(** ** Merging props *)

Lemma lookup_app k a b :
  lookup k (a ++ b) =
    match lookup k a with
    | Some v => Some v
    | None => lookup k b
    end.
Proof.
  induction a as [|[k' v'] a IH]; simpl.
  - reflexivity.
  - destruct (String.eqb k k'); [reflexivity | exact IH].
Qed.

Lemma lookup_assign_same k v obj : lookup k (assign k v obj) = Some v.
Proof.
  induction obj as [|[k' v'] obj IH]; simpl.
  - rewrite String.eqb_refl. reflexivity.
  - destruct (String.eqb k k') eqn:E; simpl.
    + rewrite String.eqb_refl. reflexivity.
    + rewrite E. exact IH.
Qed.

Lemma lookup_assign_other k k' v obj :
  k <> k' -> lookup k' (assign k v obj) = lookup k' obj.
Proof.
  intros Hneq. induction obj as [|[k0 v0] obj IH]; simpl.
  - apply not_eq_sym in Hneq. apply String.eqb_neq in Hneq. rewrite Hneq. reflexivity.
  - destruct (String.eqb k k0) eqn:E; simpl.
    + apply String.eqb_eq in E. subst k0.
      apply not_eq_sym in Hneq. apply String.eqb_neq in Hneq. rewrite Hneq.
      reflexivity.
    + destruct (String.eqb k' k0); [reflexivity | exact IH].
Qed.

Lemma lookup_None_keys k obj : lookup k obj = None <-> ~ In k (keys obj).
Proof.
  induction obj as [|[k' v'] obj IH]; simpl.
  - tauto.
  - destruct (String.eqb k k') eqn:E.
    + apply String.eqb_eq in E. subst. split; [discriminate | tauto].
    + apply String.eqb_neq in E. rewrite IH. split.
      * intros H [H'|H']; [congruence | tauto].
      * tauto.
Qed.

(** An assignment keeps every key where it is; a key that was not there goes
    to the end. *)
Lemma keys_assign k v obj :
  keys (assign k v obj) =
    keys obj ++ (if existsb (String.eqb k) (keys obj) then [] else [k]).
Proof.
  induction obj as [|[k' v'] obj IH]; simpl.
  - reflexivity.
  - destruct (String.eqb k k') eqn:E; simpl.
    + apply String.eqb_eq in E. subst. rewrite app_nil_r. reflexivity.
    + rewrite IH. reflexivity.
Qed.

(** The value of a key after a merge: the last one written by the incoming
    bag, or else the one it had. *)
Lemma lookup_extend k incoming : forall current,
  lookup k (extend current incoming) =
    match lookup k (rev incoming) with
    | Some v => Some v
    | None => lookup k current
    end.
Proof.
  induction incoming as [|[k0 v0] incoming IH]; intros current.
  - reflexivity.
  - change (extend current ((k0, v0) :: incoming))
      with (extend (assign k0 v0 current) incoming).
    rewrite IH. simpl rev. rewrite lookup_app.
    destruct (lookup k (rev incoming)); [reflexivity|].
    simpl. destruct (String.eqb k k0) eqn:E.
    + apply String.eqb_eq in E. subst. apply lookup_assign_same.
    + apply String.eqb_neq in E. apply lookup_assign_other. congruence.
Qed.

(** The keys after a merge: the keys there were, in the order they had,
    followed by keys that are new. *)
Lemma keys_extend incoming : forall current,
  exists fresh,
    keys (extend current incoming) = keys current ++ fresh /\
    forall k, In k fresh -> In k (keys incoming) /\ ~ In k (keys current).
Proof.
  induction incoming as [|[k0 v0] incoming IH]; intros current.
  - exists []. split; [symmetry; apply app_nil_r | intros k []].
  - change (extend current ((k0, v0) :: incoming))
      with (extend (assign k0 v0 current) incoming).
    destruct (IH (assign k0 v0 current)) as (fresh & Hkeys & Hfresh).
    rewrite keys_assign in Hkeys.
    destruct (existsb (String.eqb k0) (keys current)) eqn:E.
    + exists fresh. rewrite app_nil_r in Hkeys. split; [exact Hkeys|].
      intros k Hin. destruct (Hfresh k Hin) as [H1 H2]. split.
      * right. exact H1.
      * intros Hc. apply H2. rewrite keys_assign, E, app_nil_r. exact Hc.
    + exists (k0 :: fresh). rewrite <- app_assoc in Hkeys. split; [exact Hkeys|].
      intros k [Hk|Hin].
      * subst k. split; [left; reflexivity|].
        intros Hc. apply Bool.not_true_iff_false in E. apply E.
        apply existsb_exists. exists k0. split; [exact Hc | apply String.eqb_refl].
      * destruct (Hfresh k Hin) as [H1 H2]. split; [right; exact H1|].
        intros Hc. apply H2. rewrite keys_assign. apply in_or_app. left. exact Hc.
Qed.

Lemma listener_PROPS_step incoming s :
  let merged := extend (props (this s)) incoming in
  props (this (snd (listener_PROPS incoming s))) = merged /\
  trace_of (listener_PROPS incoming s) =
    events (window s) ++ [EvHook OnProps None merged].
Proof.
  destruct s as [c w]. unfold listener_PROPS, trace_of, extend_props, call, bind.
  simpl.
  destruct (onProps c None (events w)); split; reflexivity.
Qed.

Lemma lookup_rev_absent k incoming :
  ~ In k (keys incoming) -> lookup k (rev incoming) = None.
Proof.
  intros H. apply lookup_None_keys. unfold keys. rewrite map_rev.
  intros Hin. apply H. apply in_rev. exact Hin.
Qed.

(** C5.  The PROPS listener merges the incoming bag into [this.props]: a key
    the message carries takes the value the message wrote last, every other
    key keeps its value, all keys that were there keep their places and new
    keys follow them; then [this.onProps] is called, once, seeing the merged
    props.  With [{x:1, y:1}] and an incoming [{x:2}] the result is
    [{x:2, y:1}]. *)
Theorem props_message_merges incoming s :
  let current := props (this s) in
  let merged := extend current incoming in
  let r := listener_PROPS incoming s in
  props (this (snd r)) = merged /\
  trace_of r = events (window s) ++ [EvHook OnProps None merged] /\
  (forall k,
     lookup k merged =
       match lookup k (rev incoming) with
       | Some v => Some v
       | None => lookup k current
       end) /\
  (forall k, ~ In k (keys incoming) -> lookup k merged = lookup k current) /\
  (exists fresh,
     keys merged = keys current ++ fresh /\
     forall k, In k fresh -> In k (keys incoming) /\ ~ In k (keys current)) /\
  extend [("x", VNum 1); ("y", VNum 1)] [("x", VNum 2)] =
    [("x", VNum 2); ("y", VNum 1)].
Proof.
  intros current merged r.
  destruct (listener_PROPS_step incoming s) as [Hprops Htrace].
  split; [exact Hprops|]. split; [exact Htrace|].
  split; [intros k; apply lookup_extend|].
  split.
  - intros k Hk. unfold merged. rewrite lookup_extend.
    rewrite (lookup_rev_absent _ _ Hk). reflexivity.
  - split; [apply keys_extend | reflexivity].
Qed.

Lemma props_message_merges_witness :
  props (this (snd (listener_PROPS [("x", VNum 2)] (foo_delegated (Some IFRAME))))) =
    [("x", VNum 2); ("y", VNum 1)] /\
  trace_of (listener_PROPS [("x", VNum 2)] (foo_delegated (Some IFRAME))) =
    [EvHook OnProps None [("x", VNum 2); ("y", VNum 1)]] /\
  lookup "y" (extend [("x", VNum 1); ("y", VNum 1)] [("x", VNum 2)]) = Some (VNum 1).
Proof.
  destruct (props_message_merges [("x", VNum 2)] (foo_delegated (Some IFRAME)))
    as (H1 & H2 & _ & H4 & _).
  split; [exact H1|]. split; [exact H2|].
  apply (H4 "y"). simpl. intros [H|[]]. discriminate H.
Defined.

(** ** Reporting errors *)

Lemma error_step err s :
  let pcw := parentComponentWindow (window s) in
  let generic := plain_Error (window s) (lifecycle_message (tag (this s))) in
  error err s =
    (Ok tt,
     {| this := this s;
        window :=
          add_event
            (EvSend pcw ERROR
               (ErrorData (error_text (if isIntegrationError err then err else generic))))
            (add_event (EvLog (send_to_parent_component ERROR))
               (if isIntegrationError err
                then add_event (EvLog (log_error (error_detail err))) (window s)
                else add_event (EvConsoleError (stack err))
                       (add_event (EvLog (log_error (error_detail err))) (window s)))) |}).
Proof.
  destruct s as [c w]. unfold error, bind. simpl.
  destruct (isIntegrationError err); reflexivity.
Qed.

Lemma error_text_with_stack err st :
  stack err = Some st -> st <> ""%string ->
  error_text err = (message err ++ newline ++ st)%string.
Proof.
  intros Hst Hne. unfold error_text. rewrite Hst. simpl.
  apply String.eqb_neq in Hne. rewrite Hne. reflexivity.
Qed.

(** C6.  [error(err)] sends one ERROR message to the parent component window.
    For an [IntegrationError] its text is the error's own message, a line
    break and its stack (or [err.toString()] when it has no stack).  For any
    other error the text is built from a fresh error whose message is the
    fixed sentence about the component; nothing of the original enters it, so
    two different unknown errors are reported by the same message.  The
    original goes to the log and to [console.error] only. *)
Theorem error_report err s :
  let pcw := parentComponentWindow (window s) in
  let generic := plain_Error (window s) (lifecycle_message (tag (this s))) in
  let r := error err s in
  fst r = Ok tt /\
  (isIntegrationError err = true ->
   sent (trace_of r) =
     sent (events (window s)) ++ [EvSend pcw ERROR (ErrorData (error_text err))]) /\
  (forall st, stack err = Some st -> st <> ""%string ->
   error_text err = (message err ++ newline ++ st)%string) /\
  (truthy_string (stack err) = false -> error_text err = toString err) /\
  (isIntegrationError err = false ->
   sent (trace_of r) =
     sent (events (window s)) ++ [EvSend pcw ERROR (ErrorData (error_text generic))] /\
   trace_of r =
     events (window s) ++
     [EvLog (log_error (error_detail err));
      EvConsoleError (stack err);
      EvLog (send_to_parent_component ERROR);
      EvSend pcw ERROR (ErrorData (error_text generic))] /\
   forall err',
     isIntegrationError err' = false ->
     sent (trace_of (error err' s)) = sent (trace_of r)) /\
  message generic =
    ("[" ++ tag (this s) ++ "] Child lifecycle method threw an error")%string.
Proof.
  intros pcw generic r. subst r. unfold trace_of.
  rewrite error_step. fold pcw generic. simpl.
  split; [reflexivity|].
  split.
  { intros ->. simpl. rewrite !sent_app. simpl. rewrite !app_nil_r. reflexivity. }
  split; [intros st; apply error_text_with_stack|].
  split.
  { unfold error_text. destruct (stack err) as [st|]; [|reflexivity].
    intros ->. reflexivity. }
  split; [|reflexivity].
  intros Hunknown. rewrite Hunknown. simpl.
  split; [|split].
  - rewrite !sent_app. simpl. rewrite !app_nil_r. reflexivity.
  - rewrite <- !app_assoc. reflexivity.
  - intros err' Hunknown'. rewrite error_step. fold pcw generic.
    rewrite Hunknown'. simpl. rewrite !sent_app. simpl. reflexivity.
Qed.

Lemma error_report_witness :
  sent (trace_of (error integration_failure (foo_delegated None))) =
    [EvSend (Some 11) ERROR (ErrorData ("bad props" ++ newline ++ "at render")%string)] /\
  sent (trace_of (error unknown_failure (foo_delegated None))) =
    [EvSend (Some 11) ERROR
       (ErrorData "Error: [foo] Child lifecycle method threw an error")].
Proof.
  destruct (error_report integration_failure (foo_delegated None))
    as (_ & Hknown & _).
  destruct (error_report unknown_failure (foo_delegated None))
    as (_ & _ & _ & _ & Hunknown & _).
  split.
  - exact (Hknown eq_refl).
  - exact (proj1 (Hunknown eq_refl)).
Defined.

(** ** More on window resolution *)

Lemma setWindows_resolves s wp :
  activeXComponent (window s) = None ->
  truthy (parentWindow (window s)) = true ->
  truthy (parentComponentWindow (window s)) = true ->
  windowName (window s) = inr wp ->
  win_tag wp = tag (this s) ->
  setWindows s =
    (Ok tt, {| this := this s;
               window := resolved_window (cid (this s)) (window s) |}).
Proof.
  intros Hfree Hpw Hpcw Hname Htag.
  apply String.eqb_eq in Htag.
  destruct s as [c [a pw pcw wn cs ws ev]]. simpl in *. subst a wn.
  destruct pw as [pw|]; [|discriminate]. destruct pcw as [pcw|]; [|discriminate].
  unfold setWindows, bind; simpl.
  unfold parseWindowName, bind; simpl. rewrite Htag. simpl.
  unfold watchForClose, resolved_window, bind; simpl.
  destruct (Nat.eqb pcw pw); reflexivity.
Qed.

(** Whatever its outcome, [setWindows] leaves the instance as it is and
    neither listens nor sends. *)
Lemma setWindows_silent : silent setWindows.
Proof.
  intros [c [a pw pcw wn cs ws ev]].
  unfold setWindows, bind; simpl.
  destruct a as [a|]; simpl; [split; reflexivity|].
  destruct pw as [pw|]; simpl; [|split; reflexivity].
  destruct pcw as [pcw|]; simpl; [|split; reflexivity].
  unfold parseWindowName, bind; simpl.
  destruct wn as [e|wp]; simpl; [split; reflexivity|].
  destruct (String.eqb (win_tag wp) (tag c)); simpl;
    rewrite ?messaging_app; simpl; rewrite ?app_nil_r; [|split; reflexivity].
  unfold watchForClose, bind; simpl.
  destruct (Nat.eqb pcw pw); simpl;
    rewrite ?messaging_app; simpl; rewrite ?app_nil_r; split; reflexivity.
Qed.

Lemma setWindows_Ok_iff s :
  (exists s1, setWindows s = (Ok tt, s1)) <-> resolvable s.
Proof.
  unfold resolvable. split.
  - intros [s1 H].
    destruct s as [c [a pw pcw wn cs ws ev]]. simpl.
    unfold setWindows, bind in H; simpl in H.
    destruct a as [a|]; simpl in H; [discriminate|].
    destruct pw as [pw|]; simpl in H; [|discriminate].
    destruct pcw as [pcw|]; simpl in H; [|discriminate].
    unfold parseWindowName, bind in H; simpl in H.
    destruct wn as [e|wp]; simpl in H; [discriminate|].
    destruct (String.eqb (win_tag wp) (tag c)) eqn:E; simpl in H; [|discriminate].
    apply String.eqb_eq in E.
    repeat split; try reflexivity. exists wp. split; [reflexivity | exact E].
  - intros (Hfree & Hpw & Hpcw & wp & Hname & Htag).
    eexists. apply (setWindows_resolves s Hfree Hpw Hpcw Hname Htag).
Qed.

Lemma setWindows_Ok_state s s1 :
  setWindows s = (Ok tt, s1) ->
  s1 = {| this := this s; window := resolved_window (cid (this s)) (window s) |}.
Proof.
  intros H.
  assert (Hex : exists s1, setWindows s = (Ok tt, s1)) by (exists s1; exact H).
  apply setWindows_Ok_iff in Hex.
  destruct Hex as (Hfree & Hpw & Hpcw & wp & Hname & Htag).
  rewrite (setWindows_resolves s Hfree Hpw Hpcw Hname Htag) in H.
  inversion H. reflexivity.
Qed.

Lemma resolved_window_facts id w :
  activeXComponent (resolved_window id w) = Some id /\
  watchers (resolved_window id w) =
    watchers w ++ [(WatchParent, id)] ++
    (if differ (parentComponentWindow w) (parentWindow w)
     then [(WatchParentComponent, id)] else []) /\
  messaging (events (resolved_window id w)) = messaging (events w) /\
  parentWindow (resolved_window id w) = parentWindow w /\
  parentComponentWindow (resolved_window id w) = parentComponentWindow w /\
  captureStack (resolved_window id w) = captureStack w.
Proof.
  unfold resolved_window.
  destruct (differ (parentComponentWindow w) (parentWindow w));
    simpl; rewrite ?messaging_app; simpl; rewrite ?app_nil_r, <- ?app_assoc;
    repeat split; reflexivity.
Qed.

(** X1.  [setWindows] succeeds exactly when the context is free, both parent
    windows are found and the window name decodes to the tag of the
    component.  It then stores its own instance in the context, watches the
    parent window, watches the parent component window as well when that is
    another window, and does nothing else: no listener, no message, and the
    instance is as before. *)
Theorem setWindows_resolution s :
  ((exists s1, setWindows s = (Ok tt, s1)) <-> resolvable s) /\
  (forall s1,
     setWindows s = (Ok tt, s1) ->
     this s1 = this s /\
     activeXComponent (window s1) = Some (cid (this s)) /\
     watchers (window s1) =
       watchers (window s) ++ [(WatchParent, cid (this s))] ++
       (if differ (parentComponentWindow (window s)) (parentWindow (window s))
        then [(WatchParentComponent, cid (this s))] else []) /\
     messaging (events (window s1)) = messaging (events (window s))).
Proof.
  split; [apply setWindows_Ok_iff|].
  intros s1 H. apply setWindows_Ok_state in H. subst s1. simpl.
  destruct (resolved_window_facts (cid (this s)) (window s))
    as (H1 & H2 & H3 & _).
  repeat split; assumption.
Qed.

Lemma setWindows_resolution_witness :
  activeXComponent (window (snd (setWindows (foo_delegated None)))) = Some 1 /\
  watchers (window (snd (setWindows (foo_delegated None)))) =
    [(WatchParent, 1); (WatchParentComponent, 1)].
Proof.
  destruct (proj2 (setWindows_resolution (foo_delegated None)) _ eq_refl)
    as (_ & H2 & H3 & _).
  split; [exact H2 | exact H3].
Defined.

(** ** More on [init] *)

(** [init] once the windows are resolved: the listeners and the INIT
    request. *)
Lemma init_resolves s s1 :
  setWindows (snd (log init_child s)) = (Ok tt, s1) ->
  let pw := parentWindow (window s) in
  let pcw := parentComponentWindow (window s) in
  init s =
    (Ok ReturnsHandshake,
     {| this := this s;
        window :=
          add_event (EvSend pcw INIT NoData)
            (add_event (EvLog (send_to_parent_component INIT))
               (let w1 := add_event (EvListen pcw) (window s1) in
                if differ pw pcw then add_event (EvListen pw) w1 else w1)) |}).
Proof.
  intros H pw pcw.
  pose proof (setWindows_Ok_state _ H) as Hs1.
  assert (Hex : exists s1, setWindows (snd (log init_child s)) = (Ok tt, s1))
    by (exists s1; exact H).
  apply setWindows_Ok_iff in Hex. destruct Hex as (_ & Hpw & Hpcw & _).
  destruct s as [c w]. simpl in *.
  unfold init. unfold bind at 1. simpl. unfold bind at 1. simpl.
  unfold bind at 1. unfold try_catch. unfold bind at 1. rewrite H.
  subst s1. cbn [negb].
  destruct (resolved_window_facts (cid c) (add_event (EvLog init_child) w))
    as (_ & _ & _ & Hpw' & Hpcw' & _). simpl in Hpw', Hpcw'.
  remember (resolved_window (cid c) (add_event (EvLog init_child) w)) as W.
  unfold bind, getParentComponentWindow, getParentWindow, get_window, ret,
    listen, sendToParentComponent, log, postRobot_send, emit, update_window.
  simpl. rewrite !Hpcw'. subst pw pcw.
  destruct (parentComponentWindow w) as [x|]; [|discriminate].
  rewrite andb_false_r. simpl. rewrite ?Hpw', ?Hpcw'.
  destruct (parentWindow w) as [y|]; [|discriminate].
  unfold differ.
  destruct (Nat.eqb y x); simpl; rewrite ?Hpcw'; reflexivity.
Qed.

Lemma resolvable_logged s l :
  resolvable (snd (log l s)) <-> resolvable s.
Proof. destruct s as [c w]. reflexivity. Qed.

Lemma not_resolvable_throws s :
  ~ resolvable s -> exists e s1, setWindows s = (Throw e, s1).
Proof.
  intros Hn. destruct (setWindows s) as [[[]|e] s1] eqn:H.
  - exfalso. apply Hn. apply setWindows_Ok_iff. exists s1. exact H.
  - exists e, s1. reflexivity.
Qed.

(** X2.  In surroundings where the resolution can succeed, [init] goes
    through the handshake whether or not the instance is standalone: it
    listens to the parent component window, listens to the parent window too
    when that is another window, and sends one INIT to the parent component
    window; nothing else is listened to or sent, and the instance is the one
    stored in the context afterwards. *)
Theorem init_handshake s :
  resolvable s ->
  let pw := parentWindow (window s) in
  let pcw := parentComponentWindow (window s) in
  fst (init s) = Ok ReturnsHandshake /\
  messaging (trace_of (init s)) =
    messaging (events (window s)) ++
    [EvListen pcw] ++ (if differ pw pcw then [EvListen pw] else []) ++
    [EvSend pcw INIT NoData] /\
  activeXComponent (window (snd (init s))) = Some (cid (this s)) /\
  this (snd (init s)) = this s.
Proof.
  intros Hres pw pcw.
  apply (proj2 (resolvable_logged s init_child)) in Hres.
  apply (proj2 (setWindows_Ok_iff (snd (log init_child s)))) in Hres.
  destruct Hres as [s1 Hset].
  rewrite (init_resolves s Hset). unfold trace_of. cbv zeta. simpl.
  apply setWindows_Ok_state in Hset. subst s1. simpl.
  destruct (resolved_window_facts (cid (this (snd (log init_child s))))
              (window (snd (log init_child s)))) as (Hmark & _ & Hmsg & _).
  destruct s as [c w]. simpl in *. fold pw pcw.
  split; [reflexivity|].
  destruct (differ pw pcw); simpl;
    rewrite ?messaging_app; simpl; rewrite Hmsg, ?messaging_app; simpl;
    rewrite ?app_nil_r, <- ?app_assoc; auto.
Qed.

Lemma init_handshake_witness :
  fst (init (foo_delegated None)) = Ok ReturnsHandshake /\
  messaging (trace_of (init (foo_delegated None))) =
    [EvListen (Some 11); EvListen (Some 10); EvSend (Some 11) INIT NoData] /\
  messaging (trace_of (init (foo_at_home true))) =
    [EvListen (Some 10); EvSend (Some 10) INIT NoData].
Proof.
  assert (H1 : resolvable (foo_delegated None)).
  { repeat split. exists {| win_tag := "foo" |}. split; reflexivity. }
  assert (H2 : resolvable (foo_at_home true)).
  { repeat split. exists {| win_tag := "foo" |}. split; reflexivity. }
  destruct (init_handshake H1) as (Ha & Hb & _).
  destruct (init_handshake H2) as (_ & Hc & _).
  split; [exact Ha|]. split; [exact Hb | exact Hc].
Defined.

(** X3.  The three ways [init] ends.  It returns the handshake promise
    exactly when the resolution can succeed; otherwise it returns [undefined]
    if the instance is standalone and throws if it is not, and in both cases
    nothing has been listened to or sent.  It never returns the resolved
    promise of its standalone test: once [setWindows] has succeeded there is
    a parent component window. *)
Theorem init_outcomes s :
  (fst (init s) = Ok ReturnsHandshake <-> resolvable s) /\
  (fst (init s) = Ok ReturnsUndefined <->
     ~ resolvable s /\ standalone (this s) = true) /\
  ((exists e, fst (init s) = Throw e) <->
     ~ resolvable s /\ standalone (this s) = false) /\
  fst (init s) <> Ok ReturnsResolved /\
  (~ resolvable s ->
     messaging (trace_of (init s)) = messaging (events (window s))).
Proof.
  destruct (setWindows (snd (log init_child s))) as [[[]|e] s1] eqn:Hset.
  - assert (Hres : resolvable s).
    { apply (proj1 (resolvable_logged s init_child)).
      apply (proj1 (setWindows_Ok_iff (snd (log init_child s)))).
      exists s1. exact Hset. }
    rewrite (init_resolves s Hset). cbv zeta. cbn [fst].
    split; [split; [intros _; exact Hres | reflexivity]|].
    split; [split; [discriminate | intros [H _]; contradiction]|].
    split; [split; [intros [e H]; discriminate | intros [H _]; contradiction]|].
    split; [discriminate | intros H; contradiction].
  - assert (Hnot : ~ resolvable s).
    { intros Hres. apply (proj2 (resolvable_logged s init_child)) in Hres.
      apply (proj2 (setWindows_Ok_iff (snd (log init_child s)))) in Hres.
      destruct Hres as [s2 H2].
      rewrite H2 in Hset. discriminate Hset. }
    pose proof (setWindows_silent (snd (log init_child s))) as [_ Hmsg].
    rewrite Hset in Hmsg. simpl in Hmsg.
    rewrite (init_catch_block s Hset). unfold trace_of.
    destruct s as [c w]. simpl in *.
    rewrite messaging_app in Hmsg. simpl in Hmsg. rewrite app_nil_r in Hmsg.
    destruct (standalone c); cbn [fst snd].
    + split; [split; [discriminate | intros H; contradiction]|].
      split; [split; [intros _; split; [exact Hnot | reflexivity] | reflexivity]|].
      split; [split; [intros [e' H]; discriminate | intros [_ H]; discriminate]|].
      split; [discriminate|].
      intros _. simpl. rewrite messaging_app. simpl. rewrite app_nil_r. exact Hmsg.
    + split; [split; [discriminate | intros H; contradiction]|].
      split; [split; [discriminate | intros [_ H]; discriminate]|].
      split; [split; [intros _; split; [exact Hnot | reflexivity]
                     | intros _; exists e; reflexivity]|].
      split; [discriminate|].
      intros _. exact Hmsg.
Qed.

Lemma init_outcomes_witness :
  fst (init (orphan true)) = Ok ReturnsUndefined /\
  messaging (trace_of (init (orphan true))) = [].
Proof.
  assert (Hnot : ~ resolvable (orphan true)).
  { intros (_ & H & _). discriminate H. }
  destruct (init_outcomes (orphan true)) as (_ & H2 & _ & _ & H5).
  split.
  - apply (proj2 H2). split; [exact Hnot | reflexivity].
  - apply H5. exact Hnot.
Defined.

(** ** One handshake per context *)

Lemma inits_app t u : inits (t ++ u) = inits t ++ inits u.
Proof. apply filter_app. Qed.

Lemma inits_messaging t : inits (messaging t) = inits t.
Proof.
  induction t as [|e t IH]; simpl.
  - reflexivity.
  - destruct e; simpl; try exact IH.
    + destruct name; simpl; rewrite ?IH; reflexivity.
Qed.

Lemma quiet_ret A (a : A) : quiet (ret a).
Proof. intros s. repeat split. apply incl_refl. Qed.

Lemma quiet_throw A e : quiet (@throw A e).
Proof. intros s. repeat split. apply incl_refl. Qed.

Lemma quiet_bind A B (m : M A) (k : A -> M B) :
  quiet m -> (forall a, quiet (k a)) -> quiet (bind m k).
Proof.
  intros Hm Hk s. unfold bind.
  destruct (Hm s) as (H1 & H2 & H3).
  destruct (m s) as [[a|e] s']; simpl in *.
  - destruct (Hk a s') as (K1 & K2 & K3).
    rewrite K1, K2, H1, H2. repeat split.
    eapply incl_tran; eassumption.
  - auto.
Qed.

Lemma quiet_try_catch A (m : M A) (h : JsError -> M A) :
  quiet m -> (forall e, quiet (h e)) -> quiet (try_catch m h).
Proof.
  intros Hm Hh s. unfold try_catch.
  destruct (Hm s) as (H1 & H2 & H3).
  destruct (m s) as [[a|e] s']; simpl in *.
  - auto.
  - destruct (Hh e s') as (K1 & K2 & K3).
    rewrite K1, K2, H1, H2. repeat split.
    eapply incl_tran; eassumption.
Qed.

Lemma quiet_get_this : quiet get_this.
Proof. intros s. repeat split. apply incl_refl. Qed.

Lemma quiet_get_window : quiet get_window.
Proof. intros s. repeat split. apply incl_refl. Qed.

Lemma quiet_put_this c : quiet (put_this c).
Proof. intros s. repeat split. apply incl_refl. Qed.

Lemma quiet_emit e : is_INIT e = false -> quiet (emit e).
Proof.
  intros H s. simpl. rewrite inits_app. simpl. rewrite H, app_nil_r.
  repeat split. apply incl_refl.
Qed.

Lemma quiet_drop_watcher t id : quiet (update_window (drop_watcher t id)).
Proof.
  intros s. simpl. repeat split.
  intros x Hx. apply filter_In in Hx. tauto.
Qed.

Lemma quiet_surroundings pw pcw name : quiet (surroundings pw pcw name).
Proof. intros s. repeat split. apply incl_refl. Qed.

Create HintDb quiet.
#[local] Hint Resolve quiet_ret quiet_throw quiet_get_this quiet_get_window
  quiet_put_this quiet_drop_watcher quiet_surroundings : quiet.

Ltac hush :=
  repeat first
    [ solve [auto with quiet]
    | solve [apply quiet_emit; reflexivity]
    | apply quiet_bind; [| intros ?]
    | apply quiet_try_catch; [| intros ?]
    | match goal with
      | |- quiet (if ?b then _ else _) => destruct b
      | |- quiet (match ?x with _ => _ end) => destruct x
      end ].

Lemma quiet_call h arg : quiet (call h arg).
Proof. unfold call. hush. Qed.

Lemma quiet_new_Error msg : quiet (new_Error msg).
Proof. unfold new_Error. hush. Qed.

Lemma quiet_close err : quiet (close err).
Proof.
  pose proof quiet_call.
  unfold close, sendToParent, log, getParentWindow, postRobot_send. hush.
Qed.

#[local] Hint Resolve quiet_call quiet_new_Error quiet_close : quiet.

Lemma quiet_error err : quiet (error err).
Proof.
  unfold error, sendToParentComponent, log, getParentComponentWindow,
    postRobot_send. hush.
Qed.

Lemma quiet_window_closed t : quiet (window_closed t).
Proof.
  unfold window_closed, watch_callback, parent_window_closed_callback,
    parent_component_window_closed_callback, log. hush.
Qed.

Lemma quiet_listeners :
  (forall incoming, quiet (listener_PROPS incoming)) /\
  (forall source, quiet (listener_CLOSE source)) /\
  (forall data, quiet (init_then data)) /\
  (forall err, quiet (init_catch err)).
Proof.
  repeat split; intros;
    unfold listener_PROPS, listener_CLOSE, init_then, init_catch, extend_props,
      set_context, getParentWindow, sendToParent, log, postRobot_send; hush.
Qed.

Lemma quiet_orderly A (m : M A) s :
  quiet m -> orderly (window s) -> orderly (window (snd (m s))).
Proof.
  intros Hq (H1 & H2 & H3). destruct (Hq s) as (Q1 & Q2 & Q3).
  unfold orderly. rewrite Q1, Q2. split; [exact H1|]. split.
  - intros Hfree. destruct (H2 Hfree) as [Hi Hw]. split; [exact Hi|].
    destruct (watchers (window (snd (m s)))) as [|x l] eqn:E; [reflexivity|].
    exfalso. specialize (Q3 x (or_introl eq_refl)). rewrite Hw in Q3. exact Q3.
  - intros t id Hin. apply (H3 t id). apply Q3. exact Hin.
Qed.

Lemma setWindows_Throw_watchers s e s1 :
  setWindows s = (Throw e, s1) -> watchers (window s1) = watchers (window s).
Proof.
  destruct s as [c [a pw pcw wn cs ws ev]].
  unfold setWindows, bind; simpl.
  destruct a as [a|]; simpl; [intros H; inversion H; reflexivity|].
  destruct pw as [pw|]; simpl; [|intros H; inversion H; reflexivity].
  destruct pcw as [pcw|]; simpl; [|intros H; inversion H; reflexivity].
  unfold parseWindowName, bind; simpl.
  destruct wn as [e0|wp]; simpl; [intros H; inversion H; reflexivity|].
  destruct (String.eqb (win_tag wp) (tag c)); simpl;
    [|intros H; inversion H; reflexivity].
  unfold watchForClose, bind; simpl.
  destruct (Nat.eqb pcw pw); simpl; intros H; discriminate H.
Qed.

Lemma init_orderly s :
  orderly (window s) -> orderly (window (snd (init s))).
Proof.
  intros (H1 & H2 & H3).
  destruct (setWindows (snd (log init_child s))) as [[[]|e] s1] eqn:Hset.
  - (* resolved: the context was free *)
    assert (Hres : resolvable (snd (log init_child s))).
    { apply (proj1 (setWindows_Ok_iff _)). exists s1. exact Hset. }
    destruct Hres as (Hfree & _).
    rewrite (init_resolves s Hset). cbv zeta.
    apply setWindows_Ok_state in Hset. subst s1.
    destruct (resolved_window_facts (cid (this (snd (log init_child s))))
                (window (snd (log init_child s)))) as (Hmark & Hw & Hmsg & _).
    destruct s as [c w]. simpl in *.
    destruct (H2 Hfree) as [Hi Hws].
    assert (Hin : inits (events (resolved_window (cid c)
                    (add_event (EvLog init_child) w))) = []).
    { rewrite <- inits_messaging, Hmsg, messaging_app, inits_app,
        !inits_messaging, Hi. reflexivity. }
    unfold orderly.
    destruct (differ (parentWindow w) (parentComponentWindow w)); simpl;
      rewrite !inits_app, Hin, Hmark, Hw, Hws; simpl;
      (split; [lia|]); (split; [discriminate|]);
      intros t id Hx;
      destruct (differ (parentComponentWindow w) (parentWindow w));
      simpl in Hx; intuition congruence.
  - pose proof (setWindows_Throw_watchers _ Hset) as Hw.
    pose proof (setWindows_silent (snd (log init_child s))) as [_ Hmsg].
    rewrite Hset in Hmsg. simpl in Hmsg.
    assert (Hin : inits (events (window s1)) = inits (events (window s))).
    { rewrite <- inits_messaging, Hmsg. destruct s as [c w]. simpl.
      rewrite messaging_app, inits_app, inits_messaging. simpl.
      apply app_nil_r. }
    assert (Hmark : activeXComponent (window s1) <> None /\
                    (truthy (activeXComponent (window s)) = true ->
                     activeXComponent (window s1) = activeXComponent (window s))).
    { destruct (activeXComponent (window s)) as [a|] eqn:Ha.
      - assert (Ht : truthy (activeXComponent (window (snd (log init_child s)))) = true).
        { destruct s; simpl in *. rewrite Ha. reflexivity. }
        rewrite (setWindows_taken _ Ht) in Hset. inversion Hset.
        destruct s; simpl in *. rewrite Ha. split; [discriminate | reflexivity].
      - assert (Hf : activeXComponent (window (snd (log init_child s))) = None).
        { destruct s; simpl in *. exact Ha. }
        pose proof (setWindows_marks _ Hf) as Hm. rewrite Hset in Hm. simpl in Hm.
        rewrite Hm. split; [discriminate | discriminate]. }
    destruct Hmark as [Hset' Hsame].
    rewrite (init_catch_block s Hset).
    assert (Hws : watchers (window s1) = watchers (window s)).
    { rewrite Hw. destruct s; reflexivity. }
    assert (Hord : orderly (window s1)).
    { unfold orderly. rewrite Hin, Hws. split; [exact H1|].
      split; [intros Hc; contradiction|].
      intros t id Hx.
      destruct (activeXComponent (window s)) as [a|] eqn:Ha.
      - rewrite Hsame by reflexivity. apply (H3 t id Hx).
      - destruct (H2 eq_refl) as [_ Hnil]. rewrite Hnil in Hx. destruct Hx. }
    destruct (standalone (this s)); [|exact Hord].
    apply (quiet_orderly (m := log child_standalone)); [|exact Hord].
    unfold log. apply quiet_emit. reflexivity.
Qed.

Lemma perform_orderly a s :
  orderly (window s) -> orderly (window (snd (perform a s))).
Proof.
  intros H. destruct quiet_listeners as (Q1 & Q2 & Q3 & Q4).
  destruct a; cbn [perform];
    try solve [apply quiet_orderly;
               [auto using quiet_close, quiet_error, quiet_window_closed,
                  quiet_surroundings
               | exact H]].
  - (* init *)
    unfold bind. pose proof (init_orderly s H) as Hi.
    destruct (init s) as [[r|e] s']; exact Hi.
  - (* another instance and its init *)
    unfold bind. simpl.
    pose proof (init_orderly {| this := c; window := window s |} H) as Hi.
    destruct (init {| this := c; window := window s |}) as [[r|e] s']; exact Hi.
Qed.

Lemma run_orderly l : forall s,
  orderly (window s) -> orderly (window (run l s)).
Proof.
  induction l as [|a l IH]; intros s H.
  - exact H.
  - change (run (a :: l) s) with (run l (snd (perform a s))).
    apply IH. apply perform_orderly. exact H.
Qed.

(** X4.  One handshake per execution context.  Starting from a free context
    in which nothing has happened yet, and whatever the instances in it do
    (attach, init again, close, report errors, receive messages, lose their
    parent windows), at most one INIT request is ever sent, and every watch
    on a parent window belongs to the instance stored in the context. *)
Theorem one_handshake_per_context (l : list Action) (s : St) :
  activeXComponent (window s) = None ->
  events (window s) = [] ->
  watchers (window s) = [] ->
  let w := window (run l s) in
  length (inits (events w)) <= 1 /\
  (forall t id, In (t, id) (watchers w) -> activeXComponent w = Some id).
Proof.
  intros Hfree Hev Hws w.
  assert (Hord : orderly (window s)).
  { unfold orderly. rewrite Hev, Hws. simpl.
    split; [lia|]. split; [auto|]. intros t id []. }
  destruct (run_orderly l s Hord) as (H1 & _ & H3).
  split; assumption.
Qed.

Lemma one_handshake_per_context_witness :
  length (inits (events (window
    (run [DoInit; DoAttach (sample_child 2 "foo" false None); DoInit;
          DoClose None; DoAttach (sample_child 3 "foo" true None)]
       (foo_delegated None))))) <= 1.
Proof.
  exact (proj1 (one_handshake_per_context
                  [DoInit; DoAttach (sample_child 2 "foo" false None); DoInit;
                   DoClose None; DoAttach (sample_child 3 "foo" true None)]
                  (foo_delegated None) eq_refl eq_refl eq_refl)).
Defined.

(** ** After the handshake *)

Lemma init_handshake_mark s :
  fst (init s) = Ok ReturnsHandshake ->
  activeXComponent (window (snd (init s))) = Some (cid (this s)).
Proof.
  intros H.
  destruct (setWindows (snd (log init_child s))) as [[[]|e] s1] eqn:Hset.
  - rewrite (init_resolves s Hset). cbv zeta.
    apply setWindows_Ok_state in Hset. subst s1.
    destruct (resolved_window_facts (cid (this (snd (log init_child s))))
                (window (snd (log init_child s)))) as (Hmark & _).
    destruct s as [c w]. simpl in *.
    destruct (differ (parentWindow w) (parentComponentWindow w)); exact Hmark.
  - rewrite (init_catch_block s Hset) in H.
    destruct (standalone (this s)); discriminate H.
Qed.

(** X5.  The context is never given back.  Once an instance has gone through
    [init] with the handshake, it stays the instance stored in the context
    whatever happens afterwards, [close()] included; [setWindows] of any
    later instance throws the duplicate-attach error, and its [init] throws
    it too unless that instance is standalone. *)
Theorem context_is_never_released s (l : list Action) (c : ChildComponent) :
  fst (init s) = Ok ReturnsHandshake ->
  let s2 := {| this := c; window := window (run l (snd (init s))) |} in
  let err := plain_Error (window s2) (multiple_message (tag c)) in
  activeXComponent (window s2) = Some (cid (this s)) /\
  setWindows s2 = (Throw err, s2) /\
  fst (init s2) = (if standalone c then Ok ReturnsUndefined else Throw err).
Proof.
  intros H s2 err.
  pose proof (init_handshake_mark s H) as Hmark.
  assert (Hs2 : activeXComponent (window s2) = Some (cid (this s))).
  { unfold s2. simpl. rewrite run_keeps_mark; rewrite Hmark; reflexivity. }
  assert (Ht : truthy (activeXComponent (window s2)) = true)
    by (rewrite Hs2; reflexivity).
  split; [exact Hs2|]. split.
  - apply setWindows_taken. exact Ht.
  - assert (Hlog : setWindows (snd (log init_child s2)) =
                   (Throw err, snd (log init_child s2))).
    { apply (setWindows_taken (snd (log init_child s2))). exact Ht. }
    rewrite (init_catch_block s2 Hlog). simpl.
    destruct (standalone c); reflexivity.
Qed.

Lemma context_is_never_released_witness :
  fst (init {| this := sample_child 2 "foo" false None;
               window := window (run [DoClose None; DoWindowClosed WatchParent]
                                   (snd (init (foo_at_home false)))) |}) =
    Throw (plain_Error (window (foo_at_home false)) (multiple_message "foo")).
Proof.
  exact (proj2 (proj2 (context_is_never_released (foo_at_home false)
                  [DoClose None; DoWindowClosed WatchParent]
                  (sample_child 2 "foo" false None) eq_refl))).
Defined.

(** ** The CLOSE message *)

Lemma differ_false_iff (a : WindowRef) (pw : option WindowRef) :
  differ (Some a) pw = false <-> pw = Some a.
Proof.
  destruct pw as [b|]; simpl.
  - rewrite Bool.negb_false_iff, Nat.eqb_eq. split; congruence.
  - split; discriminate.
Qed.

(** X6.  A CLOSE message from the parent window is taken as the news that the
    component is closing: [this.onClose] is called, without an error, and
    nothing goes back.  A CLOSE message from any other window is passed on:
    one CLOSE goes to the parent window and [this.onClose] is not called.
    Both hold whether the hook returns or not. *)
Theorem close_message_handling (source : WindowRef) s :
  let pw := parentWindow (window s) in
  let r := listener_CLOSE source s in
  (pw = Some source ->
   sent (trace_of r) = sent (events (window s)) /\
   hook_calls OnClose (trace_of r) =
     hook_calls OnClose (events (window s)) ++
     [EvHook OnClose None (props (this s))]) /\
  (pw <> Some source ->
   fst r = Ok tt /\
   sent (trace_of r) = sent (events (window s)) ++ [EvSend pw CLOSE NoData] /\
   hook_calls OnClose (trace_of r) = hook_calls OnClose (events (window s))).
Proof.
  intros pw r. subst r pw. unfold trace_of.
  unfold listener_CLOSE, getParentWindow, bind, get_window, ret.
  cbn [fst snd].
  destruct (differ (Some source) (parentWindow (window s))) eqn:D; cbn [negb].
  - split.
    + intros Heq. apply differ_false_iff in Heq. congruence.
    + intros _. simpl. rewrite !sent_app, !hook_calls_app. simpl.
      rewrite !app_nil_r. repeat split.
  - split.
    + intros _. unfold call, bind. simpl.
      destruct (onClose (this s) None (events (window s))); simpl;
        rewrite sent_app, hook_calls_app; simpl; rewrite app_nil_r;
        split; reflexivity.
    + intros Hneq. apply differ_false_iff in D. contradiction.
Qed.

Lemma close_message_handling_witness :
  sent (trace_of (listener_CLOSE 10 (foo_delegated None))) = [] /\
  sent (trace_of (listener_CLOSE 11 (foo_delegated None))) =
    [EvSend (Some 10) CLOSE NoData] /\
  hook_calls OnClose (trace_of (listener_CLOSE 11 (foo_delegated None))) = [].
Proof.
  destruct (close_message_handling 10 (foo_delegated None)) as [Hp _].
  destruct (close_message_handling 11 (foo_delegated None)) as [_ Ho].
  destruct (Hp eq_refl) as [H1 _].
  destruct (Ho ltac:(discriminate)) as (_ & H2 & H3).
  split; [exact H1|]. split; [exact H2 | exact H3].
Defined.

(** ** Hooks that throw *)

(** X7.  When [this.onClose] lets an exception escape, the close stops
    there: [close()] throws and sends no CLOSE, the callback for the parent
    window throws and does not call [window.close()] even in a popup, and the
    callback for the parent component window throws and sends no CLOSE. *)
Theorem escaping_onClose_ends_the_close s e :
  (forall arg hist, onClose (this s) arg hist = Some e) ->
  (forall err,
     fst (close err s) = Throw e /\
     sent (trace_of (close err s)) = sent (events (window s))) /\
  (fst (parent_window_closed_callback s) = Throw e /\
   window_closes (trace_of (parent_window_closed_callback s)) =
     window_closes (events (window s))) /\
  (fst (parent_component_window_closed_callback s) = Throw e /\
   sent (trace_of (parent_component_window_closed_callback s)) =
     sent (events (window s))).
Proof.
  intros H. destruct s as [c w]. simpl in H. unfold trace_of.
  split; [|split].
  - intros err. unfold close, call, bind. simpl. rewrite H. simpl.
    rewrite !sent_app. simpl. rewrite !app_nil_r. split; reflexivity.
  - unfold parent_window_closed_callback, call, bind. simpl. rewrite H. simpl.
    rewrite !window_closes_app. simpl. rewrite !app_nil_r. split; reflexivity.
  - unfold parent_component_window_closed_callback, close, call, bind. simpl.
    rewrite H. simpl.
    rewrite !sent_app. simpl. rewrite !app_nil_r. split; reflexivity.
Qed.

Lemma escaping_onClose_ends_the_close_witness :
  fst (window_closed WatchParent (touchy_watching (Some POPUP))) =
    Throw unknown_failure /\
  window_closes (trace_of (parent_window_closed_callback
                             (touchy_watching (Some POPUP)))) = [] /\
  sent (trace_of (close None (touchy_watching (Some POPUP)))) = [].
Proof.
  destruct (@escaping_onClose_ends_the_close (touchy_watching (Some POPUP))
              unknown_failure (fun _ _ => eq_refl)) as (Hc & (_ & Hw) & _).
  split; [reflexivity|]. split; [exact Hw | exact (proj2 (Hc None))].
Defined.

(** ** The reply to INIT *)

(** X8.  The reply to INIT.  The context type and the props of the reply are
    taken over, the props merged into the ones the instance has, before any
    hook runs; [this.onEnter] is called first and [this.onProps] second, both
    seeing the merged props; nothing is sent. *)
Theorem handshake_reply data s :
  let merged := extend (props (this s)) (data_props data) in
  let r := init_then data s in
  context (this (snd r)) = data_context data /\
  props (this (snd r)) = merged /\
  sent (trace_of r) = sent (events (window s)) /\
  (onEnter (this s) None (events (window s)) = None ->
   onProps (this s) None (events (window s) ++ [EvHook OnEnter None merged]) = None ->
   fst r = Ok tt /\
   trace_of r =
     events (window s) ++
     [EvHook OnEnter None merged; EvHook OnProps None merged]).
Proof.
  intros merged r. subst r. destruct s as [c w]. unfold trace_of.
  unfold init_then, init_catch, call, set_context, extend_props, try_catch, bind.
  subst merged. simpl. set (merged := extend (props c) (data_props data)).
  destruct (onEnter c None (events w)) as [e1|] eqn:E1; simpl.
  - destruct (onError c (Some e1) (events w ++ [EvHook OnEnter None merged]));
      simpl; rewrite !sent_app; simpl; rewrite !app_nil_r;
      (split; [reflexivity|]); (split; [reflexivity|]);
      (split; [reflexivity|]);
      intros Hx; discriminate Hx.
  - destruct (onProps c None (events w ++ [EvHook OnEnter None merged]))
      as [e2|] eqn:E2; simpl.
    + destruct (onError c (Some e2)
                  ((events w ++ [EvHook OnEnter None merged]) ++
                   [EvHook OnProps None merged]));
        simpl; rewrite !sent_app; simpl; rewrite !app_nil_r;
        (split; [reflexivity|]); (split; [reflexivity|]);
        (split; [reflexivity|]);
        intros _ Hx; discriminate Hx.
    + rewrite !sent_app; simpl; rewrite !app_nil_r, <- app_assoc.
      repeat split; reflexivity.
Qed.

Lemma handshake_reply_witness :
  fst (init_then {| data_context := Some POPUP; data_props := [("x", VNum 2)] |}
         (foo_at_home false)) = Ok tt /\
  trace_of (init_then {| data_context := Some POPUP; data_props := [("x", VNum 2)] |}
              (foo_at_home false)) =
    [EvHook OnEnter None [("x", VNum 2); ("y", VNum 1)];
     EvHook OnProps None [("x", VNum 2); ("y", VNum 1)]].
Proof.
  destruct (handshake_reply
              {| data_context := Some POPUP; data_props := [("x", VNum 2)] |}
              (foo_at_home false)) as (_ & _ & _ & H).
  exact (H eq_refl eq_refl).
Defined.

(** X9.  An exception that escapes a hook during the reply to INIT goes to
    [this.onError] and what follows is left out: when [this.onEnter] lets one
    escape, [this.onProps] is not called; when [this.onProps] lets one
    escape, [this.onError] is called after it.  The outcome of the reply is
    the outcome of [this.onError].  A failed handshake calls [this.onError]
    with the failure and nothing else. *)
Theorem handshake_errors_go_to_onError data s e :
  let merged := extend (props (this s)) (data_props data) in
  let r := init_then data s in
  let outcome (o : option JsError) : Result unit :=
    match o with None => Ok tt | Some e' => Throw e' end in
  (onEnter (this s) None (events (window s)) = Some e ->
   trace_of r =
     events (window s) ++
     [EvHook OnEnter None merged; EvHook OnError (Some e) merged] /\
   fst r =
     outcome (onError (this s) (Some e)
                (events (window s) ++ [EvHook OnEnter None merged]))) /\
  (onEnter (this s) None (events (window s)) = None ->
   onProps (this s) None (events (window s) ++ [EvHook OnEnter None merged]) = Some e ->
   trace_of r =
     events (window s) ++
     [EvHook OnEnter None merged; EvHook OnProps None merged;
      EvHook OnError (Some e) merged] /\
   fst r =
     outcome (onError (this s) (Some e)
                (events (window s) ++
                 [EvHook OnEnter None merged; EvHook OnProps None merged]))) /\
  trace_of (init_catch e s) =
    events (window s) ++ [EvHook OnError (Some e) (props (this s))].
Proof.
  intros merged r outcome. subst r. destruct s as [c w]. unfold trace_of.
  unfold init_then, init_catch, call, set_context, extend_props, try_catch, bind.
  subst merged. simpl. set (merged := extend (props c) (data_props data)).
  split; [|split].
  - intros E1. rewrite E1. simpl.
    destruct (onError c (Some e) (events w ++ [EvHook OnEnter None merged]));
      simpl; rewrite <- app_assoc; split; reflexivity.
  - intros E1 E2. rewrite E1. simpl. rewrite E2. simpl.
    rewrite <- !app_assoc. simpl.
    destruct (onError c (Some e) _); simpl; rewrite <- ?app_assoc;
      split; reflexivity.
  - destruct (onError c (Some e) (events w)); reflexivity.
Qed.

Lemma handshake_errors_go_to_onError_witness :
  trace_of (init_then {| data_context := Some IFRAME; data_props := [] |}
              {| this := touchy_child None;
                 window := sample_window (Some 1) (Some 10) (Some 10) "foo" |}) =
    [EvHook OnEnter None [("x", VNum 1); ("y", VNum 1)];
     EvHook OnError (Some unknown_failure) [("x", VNum 1); ("y", VNum 1)]].
Proof.
  destruct (handshake_errors_go_to_onError
              {| data_context := Some IFRAME; data_props := [] |}
              {| this := touchy_child None;
                 window := sample_window (Some 1) (Some 10) (Some 10) "foo" |}
              unknown_failure) as (H & _).
  exact (proj1 (H eq_refl)).
Defined.

(** ** Resizing *)

Lemma init_then_fields data s :
  context (this (snd (init_then data s))) = data_context data /\
  parentWindow (window (snd (init_then data s))) = parentWindow (window s).
Proof.
  destruct s as [c w].
  unfold init_then, init_catch, call, set_context, extend_props, try_catch, bind.
  simpl.
  destruct (onEnter c None (events w)); simpl.
  - destruct (onError c _ _); split; reflexivity.
  - destruct (onProps c None _); simpl.
    + destruct (onError c _ _); split; reflexivity.
    + split; reflexivity.
Qed.

Lemma resize_step (width height : Z) s :
  resize width height s =
    (Ok tt,
     {| this := this s;
        window :=
          match context (this s) with
          | Some POPUP =>
              add_event (EvResizeTo width height)
                (add_event (EvLog (log_resize width height)) (window s))
          | _ =>
              add_event (EvSend (parentWindow (window s)) RESIZE
                           (ResizeData width height))
                (add_event (EvLog (send_to_parent RESIZE))
                   (add_event (EvLog (log_resize width height)) (window s)))
          end |}).
Proof.
  destruct s as [c w]. unfold resize, bind. simpl.
  destruct (context c) as [[|]|]; reflexivity.
Qed.

(** X10.  How [resize] acts follows the context type the parent has given.
    As long as the context type of the instance is not popup, and so before
    the reply to INIT, a resize writes its log line and posts one RESIZE
    request with the width and the height to the parent window.  After a
    reply that says popup it writes its log line and calls
    [window.resizeTo], and posts nothing; after any other reply it posts the
    RESIZE request to the parent window again.  The instance is left as it
    is. *)
Theorem resize_follows_the_context (width height : Z) data s :
  let request (w : Window) :=
    [EvLog (log_resize width height); EvLog (send_to_parent RESIZE);
     EvSend (parentWindow w) RESIZE (ResizeData width height)] in
  let s' := snd (init_then data s) in
  (context (this s) <> Some POPUP ->
   fst (resize width height s) = Ok tt /\
   trace_of (resize width height s) = events (window s) ++ request (window s) /\
   this (snd (resize width height s)) = this s) /\
  (data_context data = Some POPUP ->
   fst (resize width height s') = Ok tt /\
   trace_of (resize width height s') =
     events (window s') ++
     [EvLog (log_resize width height); EvResizeTo width height] /\
   sent (trace_of (resize width height s')) = sent (events (window s'))) /\
  (data_context data <> Some POPUP ->
   trace_of (resize width height s') = events (window s') ++ request (window s) /\
   resizes (trace_of (resize width height s')) = resizes (events (window s'))) /\
  this (snd (resize width height s')) = this s'.
Proof.
  intros request s'. unfold trace_of.
  destruct (init_then_fields data s) as [Hctx Hpw]. fold s' in Hctx, Hpw.
  rewrite !resize_step. simpl. rewrite Hctx, Hpw.
  split; [|split; [|split; [|reflexivity]]].
  - intros Hnot.
    destruct (context (this s)) as [[|]|]; try congruence;
      simpl; rewrite <- !app_assoc; repeat split.
  - intros ->. simpl. rewrite <- !app_assoc. repeat split.
    rewrite !sent_app. simpl. rewrite !app_nil_r. reflexivity.
  - intros Hnot.
    destruct (data_context data) as [[|]|]; try congruence;
      simpl; rewrite <- !app_assoc; (split; [reflexivity|]);
      unfold resizes; rewrite !filter_app; simpl; rewrite !app_nil_r;
      reflexivity.
Qed.

Lemma resize_follows_the_context_witness :
  trace_of (resize 800 600 (foo_delegated None)) =
    [EvLog (log_resize 800 600); EvLog (send_to_parent RESIZE);
     EvSend (Some 10) RESIZE (ResizeData 800 600)] /\
  sent (trace_of (resize 800 600
         (snd (init_then {| data_context := Some POPUP; data_props := [] |}
                 (foo_delegated None))))) = [].
Proof.
  destruct (resize_follows_the_context 800 600
              {| data_context := Some POPUP; data_props := [] |}
              (foo_delegated None)) as (H1 & H2 & _).
  split.
  - exact (proj1 (proj2 (H1 ltac:(discriminate)))).
  - exact (proj2 (proj2 (H2 eq_refl))).
Defined.

(** * The render drivers *)

(** X11.  [open] of the frame driver changes the parent all or nothing.
    Without a proxy frame it throws at the caller.  It resolves with a window
    exactly when the proxy yields a frame and that frame gets its window; only
    then does it watch the frame and register, in this order, the tasks that
    cancel the watch, destroy the frame and clean up the window.  In every
    other case the parent is left as it was. *)
Theorem iframe_open_all_or_nothing (b : Drivers.Browser)
    (proxyFrame : option Drivers.ProxyObject) (p : Drivers.Parent) :
  let r := Drivers.iframe_open b proxyFrame p in
  (proxyFrame = None -> r = (Drivers.Thrown (Drivers.no_frame_error b), p)) /\
  (forall win,
     fst r = Drivers.Returned (Drivers.Resolved win) <->
     exists proxy frame,
       proxyFrame = Some proxy /\
       Drivers.get proxy = Drivers.Resolved frame /\
       Drivers.awaitFrameWindow b frame = Drivers.Resolved win) /\
  (forall proxy frame win,
     proxyFrame = Some proxy ->
     Drivers.get proxy = Drivers.Resolved frame ->
     Drivers.awaitFrameWindow b frame = Drivers.Resolved win ->
     Drivers.clean (snd r) =
       Drivers.clean p ++
       [Drivers.CancelWatcher frame; Drivers.DestroyElement frame;
        Drivers.CleanUpWindow win] /\
     Drivers.watched (snd r) = Drivers.watched p ++ [frame]) /\
  ((forall win, fst r <> Drivers.Returned (Drivers.Resolved win)) -> snd r = p).
Proof.
  intros r. subst r. unfold Drivers.iframe_open.
  split; [intros ->; reflexivity|].
  destruct proxyFrame as [proxy|]; simpl.
  - destruct (Drivers.get proxy) as [frame|e|] eqn:Hget; simpl.
    + destruct (Drivers.awaitFrameWindow b frame) as [win|e|] eqn:Hwin; simpl.
      * split; [|split].
        -- intros win'. split.
           ++ intros H. inversion H; subst win'. exists proxy, frame. auto.
           ++ intros (proxy' & frame' & Hp & Hg & Hw).
              inversion Hp; subst proxy'. rewrite Hget in Hg.
              inversion Hg; subst frame'. rewrite Hwin in Hw.
              inversion Hw. reflexivity.
        -- intros proxy' frame' win' Hp Hg Hw.
           inversion Hp; subst proxy'. rewrite Hget in Hg.
           inversion Hg; subst frame'. rewrite Hwin in Hw.
           inversion Hw; subst win'. split; reflexivity.
        -- intros H. exfalso. apply (H win). reflexivity.
      * split; [|split; [|reflexivity]].
        -- intros win'. split; [discriminate|].
           intros (proxy' & frame' & Hp & Hg & Hw).
           inversion Hp; subst proxy'. rewrite Hget in Hg.
           inversion Hg; subst frame'. rewrite Hwin in Hw. discriminate Hw.
        -- intros proxy' frame' win' Hp Hg Hw.
           inversion Hp; subst proxy'. rewrite Hget in Hg.
           inversion Hg; subst frame'. rewrite Hwin in Hw. discriminate Hw.
      * split; [|split; [|reflexivity]].
        -- intros win'. split; [discriminate|].
           intros (proxy' & frame' & Hp & Hg & Hw).
           inversion Hp; subst proxy'. rewrite Hget in Hg.
           inversion Hg; subst frame'. rewrite Hwin in Hw. discriminate Hw.
        -- intros proxy' frame' win' Hp Hg Hw.
           inversion Hp; subst proxy'. rewrite Hget in Hg.
           inversion Hg; subst frame'. rewrite Hwin in Hw. discriminate Hw.
    + split; [|split; [|reflexivity]].
      * intros win'. split; [discriminate|].
        intros (proxy' & frame' & Hp & Hg & _).
        inversion Hp; subst proxy'. rewrite Hget in Hg. discriminate Hg.
      * intros proxy' frame' win' Hp Hg _.
        inversion Hp; subst proxy'. rewrite Hget in Hg. discriminate Hg.
    + split; [|split; [|reflexivity]].
      * intros win'. split; [discriminate|].
        intros (proxy' & frame' & Hp & Hg & _).
        inversion Hp; subst proxy'. rewrite Hget in Hg. discriminate Hg.
      * intros proxy' frame' win' Hp Hg _.
        inversion Hp; subst proxy'. rewrite Hget in Hg. discriminate Hg.
  - split; [|split; [|reflexivity]].
    + intros win'. split; [discriminate|].
      intros (proxy' & frame' & Hp & _). discriminate Hp.
    + intros proxy' frame' win' Hp. discriminate Hp.
Qed.

Lemma iframe_open_all_or_nothing_witness :
  Drivers.clean (snd (Drivers.iframe_open Drivers.sample_browser
                        (Some {| Drivers.get := Drivers.Resolved 3 |})
                        (Drivers.sample_parent []))) =
    [Drivers.CancelWatcher 3; Drivers.DestroyElement 3; Drivers.CleanUpWindow 103] /\
  snd (Drivers.iframe_open Drivers.sample_browser
         (Some {| Drivers.get := Drivers.Resolved 30 |})
         (Drivers.sample_parent [])) = Drivers.sample_parent [].
Proof.
  destruct (iframe_open_all_or_nothing Drivers.sample_browser
              (Some {| Drivers.get := Drivers.Resolved 3 |})
              (Drivers.sample_parent [])) as (_ & _ & H & _).
  destruct (iframe_open_all_or_nothing Drivers.sample_browser
              (Some {| Drivers.get := Drivers.Resolved 30 |})
              (Drivers.sample_parent [])) as (_ & _ & _ & H').
  split.
  - exact (proj1 (H _ 3 103 eq_refl eq_refl eq_refl)).
  - apply H'. intros win Hc. discriminate Hc.
Defined.

(** X12.  [openPrerender] of the frame driver registers the destruction of
    the prerender frame as soon as the proxy yields the frame, whatever comes
    after: the frame may never load, or load a window of another domain, and
    is still destroyed at clean-up.  The call resolves only with the proxy of
    a same-domain window of that frame; a window of another domain rejects
    it.  Without a proxy frame it throws at the caller. *)
Theorem prerender_frame_is_registered_first (b : Drivers.Browser)
    (proxyWin : Drivers.ProxyWindow)
    (proxyPrerenderFrame : option Drivers.ProxyObject) (p : Drivers.Parent) :
  let r := Drivers.iframe_openPrerender b proxyWin proxyPrerenderFrame p in
  (proxyPrerenderFrame = None ->
   r = (Drivers.Thrown (Drivers.no_frame_error b), p)) /\
  (forall proxy frame,
     proxyPrerenderFrame = Some proxy ->
     Drivers.get proxy = Drivers.Resolved frame ->
     Drivers.clean (snd r) = Drivers.clean p ++ [Drivers.DestroyElement frame] /\
     Drivers.watched (snd r) = Drivers.watched p /\
     forall win,
       Drivers.awaitFrameWindow b frame = Drivers.Resolved win ->
       fst r =
         Drivers.Returned
           (if Drivers.sameDomain b win
            then Drivers.Resolved (Drivers.toProxyWindow win)
            else Drivers.Rejected (Drivers.domainError b win))) /\
  (forall pw,
     fst r = Drivers.Returned (Drivers.Resolved pw) ->
     exists proxy frame win,
       proxyPrerenderFrame = Some proxy /\
       Drivers.get proxy = Drivers.Resolved frame /\
       Drivers.awaitFrameWindow b frame = Drivers.Resolved win /\
       Drivers.sameDomain b win = true /\
       pw = Drivers.toProxyWindow win).
Proof.
  intros r. subst r. unfold Drivers.iframe_openPrerender.
  split; [intros ->; reflexivity|]. split.
  - intros proxy frame -> Hget. rewrite Hget. simpl.
    split; [reflexivity|]. split; [reflexivity|].
    intros win ->. reflexivity.
  - intros pw H.
    destruct proxyPrerenderFrame as [proxy|]; [|discriminate H].
    destruct (Drivers.get proxy) as [frame|e|] eqn:Hget; simpl in H;
      try discriminate H.
    destruct (Drivers.awaitFrameWindow b frame) as [win|e|] eqn:Hwin;
      try discriminate H.
    destruct (Drivers.sameDomain b win) eqn:Hsame; [|discriminate H].
    inversion H. exists proxy, frame, win. auto.
Qed.

Lemma prerender_frame_is_registered_first_witness :
  Drivers.clean (snd (Drivers.iframe_openPrerender Drivers.sample_browser
                        (Drivers.toProxyWindow 1)
                        (Some {| Drivers.get := Drivers.Resolved 8 |})
                        (Drivers.sample_parent []))) =
    [Drivers.DestroyElement 8] /\
  fst (Drivers.iframe_openPrerender Drivers.sample_browser
         (Drivers.toProxyWindow 1)
         (Some {| Drivers.get := Drivers.Resolved 8 |})
         (Drivers.sample_parent [])) =
    Drivers.Returned (Drivers.Rejected unknown_failure).
Proof.
  destruct (prerender_frame_is_registered_first Drivers.sample_browser
              (Drivers.toProxyWindow 1)
              (Some {| Drivers.get := Drivers.Resolved 8 |})
              (Drivers.sample_parent [])) as (_ & H & _).
  destruct (H _ 8 eq_refl eq_refl) as (Hclean & _ & Hres).
  split; [exact Hclean | exact (Hres 108 eq_refl)].
Defined.

Lemma lookup_spread k literal rest :
  lookup k (Drivers.spread literal rest) =
    match lookup k (rev rest) with
    | Some v => Some v
    | None => lookup k literal
    end.
Proof. apply (lookup_extend k rest literal). Qed.

(** X13.  [openFrame] and [open] of the frame driver, one after the other.
    When the proxy that [getProxyObject] builds gives back the element it was
    built from, and the frame gets its window, [open] resolves with that
    window, and the frame that is watched and registered for destruction is
    the very frame [openFrame] created; its name is the window name, unless
    the attributes of the component have a name of their own. *)
Theorem openFrame_then_open (b : Drivers.Browser) (p : Drivers.Parent)
    (windowName : string) (win : WindowRef) :
  let frame := Drivers.iframe b (Drivers.frame_attributes p windowName) in
  Drivers.get (Drivers.getProxyObject b frame) = Drivers.Resolved frame ->
  Drivers.awaitFrameWindow b frame = Drivers.Resolved win ->
  let r := Drivers.iframe_open b
             (Some (Drivers.iframe_openFrame b p windowName)) p in
  fst r = Drivers.Returned (Drivers.Resolved win) /\
  Drivers.watched (snd r) = Drivers.watched p ++ [frame] /\
  Drivers.clean (snd r) =
    Drivers.clean p ++
    [Drivers.CancelWatcher frame; Drivers.DestroyElement frame;
     Drivers.CleanUpWindow win] /\
  (~ In "name" (keys (Drivers.attributes_iframe p)) ->
   lookup "name" (Drivers.frame_attributes p windowName) = Some (VStr windowName)).
Proof.
  intros frame Hget Hwin r. subst r.
  unfold Drivers.iframe_open, Drivers.iframe_openFrame. fold frame.
  rewrite Hget, Hwin. simpl.
  repeat split.
  intros Hno. unfold Drivers.frame_attributes. rewrite lookup_spread.
  rewrite (lookup_rev_absent _ _ Hno). reflexivity.
Qed.

Lemma openFrame_then_open_witness :
  fst (Drivers.iframe_open Drivers.sample_browser
         (Some (Drivers.iframe_openFrame Drivers.sample_browser
                  (Drivers.sample_parent []) "xc_foo"))
         (Drivers.sample_parent [])) =
    Drivers.Returned (Drivers.Resolved 102).
Proof.
  exact (proj1 (@openFrame_then_open Drivers.sample_browser
                  (Drivers.sample_parent []) "xc_foo" 102 eq_refl eq_refl)).
Defined.

(** X14.  The attributes of the component have the last word.  In the
    attributes of a frame, of a prerender frame and in the options of a popup,
    a key the component sets itself takes the component's value, the window
    name included; a key it does not set keeps the value the driver wrote.
    The height a popup is opened with, like its width, is normalised against
    [window.outerWidth]. *)
Theorem component_attributes_override (b : Drivers.Browser) (p : Drivers.Parent)
    (windowName k : string) :
  (forall v,
     lookup k (rev (Drivers.attributes_iframe p)) = Some v ->
     lookup k (Drivers.frame_attributes p windowName) = Some v /\
     lookup k (Drivers.prerender_frame_attributes b p) = Some v) /\
  (forall v,
     lookup k (rev (Drivers.attributes_popup p)) = Some v ->
     lookup k (Drivers.popup_options b p windowName) = Some v) /\
  (~ In "name" (keys (Drivers.attributes_popup p)) ->
   lookup "name" (Drivers.popup_options b p windowName) = Some (VStr windowName)) /\
  (~ In "height" (keys (Drivers.attributes_popup p)) ->
   lookup "height" (Drivers.popup_options b p windowName) =
     Some (VNum (Drivers.normalizeDimension b (Drivers.dimension_height p)
                   (Drivers.outerWidth b)))).
Proof.
  unfold Drivers.frame_attributes, Drivers.prerender_frame_attributes,
    Drivers.popup_options.
  split; [|split; [|split]].
  - intros v H. rewrite !lookup_spread, H. split; reflexivity.
  - intros v H. rewrite lookup_spread, H. reflexivity.
  - intros H. rewrite lookup_spread, (lookup_rev_absent _ _ H). reflexivity.
  - intros H. rewrite lookup_spread, (lookup_rev_absent _ _ H). reflexivity.
Qed.

Lemma component_attributes_override_witness :
  lookup "name"
    (Drivers.frame_attributes
       (Drivers.sample_parent [("name", VStr "mine"); ("scrolling", VStr "no")])
       "xc_foo") = Some (VStr "mine") /\
  lookup "height"
    (Drivers.popup_options Drivers.sample_browser (Drivers.sample_parent [])
       "xc_foo") = Some (VNum 1024).
Proof.
  destruct (component_attributes_override Drivers.sample_browser
              (Drivers.sample_parent [("name", VStr "mine"); ("scrolling", VStr "no")])
              "xc_foo" "name") as (H1 & _).
  destruct (component_attributes_override Drivers.sample_browser
              (Drivers.sample_parent []) "xc_foo" "height") as (_ & _ & _ & H4).
  split.
  - exact (proj1 (H1 (VStr "mine") eq_refl)).
  - apply H4. simpl. tauto.
Defined.

(** X15.  [open] of the popup driver never throws at its caller: a popup
    that cannot be opened comes back as a rejected promise and leaves the
    parent as it was; a popup that opens is resolved at once and exactly one
    task, closing and cleaning up that window, is registered. *)
Theorem popup_open_rejects_instead_of_throwing (b : Drivers.Browser)
    (windowName : string) (p : Drivers.Parent) :
  let r := Drivers.popup_open b windowName p in
  (forall e, fst r <> Drivers.Thrown e) /\
  fst r <> Drivers.Returned Drivers.Pending /\
  (forall win,
     fst r = Drivers.Returned (Drivers.Resolved win) <->
     Drivers.popup b (Drivers.popup_options b p windowName) = inr win) /\
  (forall win,
     fst r = Drivers.Returned (Drivers.Resolved win) ->
     Drivers.clean (snd r) = Drivers.clean p ++ [Drivers.CloseAndCleanUpWindow win] /\
     Drivers.watched (snd r) = Drivers.watched p) /\
  (forall e,
     fst r = Drivers.Returned (Drivers.Rejected e) ->
     Drivers.popup b (Drivers.popup_options b p windowName) = inl e /\ snd r = p).
Proof.
  intros r. subst r. unfold Drivers.popup_open.
  destruct (Drivers.popup b (Drivers.popup_options b p windowName)) as [e|win];
    simpl.
  - split; [discriminate|]. split; [discriminate|].
    split; [intros win; split; discriminate|].
    split; [discriminate|].
    intros e' H. inversion H. split; reflexivity.
  - split; [discriminate|]. split; [discriminate|].
    split; [intros win'; split; intros H; inversion H; reflexivity|].
    split; [|discriminate].
    intros win' H. inversion H. split; reflexivity.
Qed.

Lemma popup_open_rejects_instead_of_throwing_witness :
  Drivers.clean (snd (Drivers.popup_open Drivers.sample_browser "xc_foo"
                        (Drivers.sample_parent []))) =
    [Drivers.CloseAndCleanUpWindow 7].
Proof.
  destruct (popup_open_rejects_instead_of_throwing Drivers.sample_browser
              "xc_foo" (Drivers.sample_parent [])) as (_ & _ & _ & H & _).
  exact (proj1 (H 7 eq_refl)).
Defined.

(** * Between INIT and its reply *)

Lemma existsb_app_r A (f : A -> bool) l x :
  f x = true -> existsb f (l ++ [x]) = true.
Proof.
  intros H. rewrite existsb_app. simpl. rewrite H.
  rewrite Bool.orb_true_r. reflexivity.
Qed.

Lemma init_resolved_state s :
  resolvable s ->
  let s1 := snd (init s) in
  this s1 = this s /\
  captureStack (window s1) = captureStack (window s) /\
  existsb (is_watcher WatchParent (cid (this s))) (watchers (window s1)) = true /\
  hook_calls OnClose (events (window s1)) = hook_calls OnClose (events (window s)) /\
  window_closes (events (window s1)) = window_closes (events (window s)).
Proof.
  intros Hres s1. subst s1.
  apply (proj2 (resolvable_logged s init_child)) in Hres.
  apply (proj2 (setWindows_Ok_iff (snd (log init_child s)))) in Hres.
  destruct Hres as [s1 Hset].
  rewrite (init_resolves s Hset). cbv zeta.
  apply setWindows_Ok_state in Hset. subst s1.
  destruct s as [c w]. simpl. unfold resolved_window. simpl.
  destruct (differ (parentWindow w) (parentComponentWindow w));
    destruct (differ (parentComponentWindow w) (parentWindow w)); simpl;
    rewrite ?hook_calls_app, ?window_closes_app; simpl;
    rewrite ?hook_calls_app, ?window_closes_app; simpl; rewrite ?app_nil_r;
    repeat split;
    rewrite ?existsb_app; simpl; rewrite Nat.eqb_refl;
    rewrite ?Bool.orb_true_r; reflexivity.
Qed.

(** X16.  A popup whose parent window goes away between INIT and its reply
    stays open.  The instance learns its context type only from the reply;
    until then the watch of the parent window calls [this.onClose] with the
    parent-closed error but never [window.close()]. *)
Theorem parent_closure_before_the_reply s :
  resolvable s ->
  context (this s) = None ->
  let r := window_closed WatchParent (snd (init s)) in
  let err := plain_Error (window s) (parent_closed_message (tag (this s))) in
  window_closes (trace_of r) = window_closes (events (window s)) /\
  hook_calls OnClose (trace_of r) =
    hook_calls OnClose (events (window s)) ++
    [EvHook OnClose (Some err) (props (this s))].
Proof.
  intros Hres Hctx r err. subst r.
  destruct (init_resolved_state Hres) as (Hthis & Hcs & Hwatch & Hhooks & Hcloses).
  set (s1 := snd (init s)) in *.
  rewrite <- Hthis in Hwatch.
  rewrite (window_closed_watched _ _ Hwatch). cbn [watch_callback].
  pose proof (parent_window_closed_callback_trace
                {| this := this s1;
                   window := drop_watcher WatchParent (cid (this s1)) (window s1) |})
    as Hcb.
  cbv zeta in Hcb. simpl in Hcb.
  set (q := parent_window_closed_callback _) in *.
  assert (Herr : plain_Error (drop_watcher WatchParent (cid (this s1)) (window s1))
                   (parent_closed_message (tag (this s1))) = err).
  { unfold plain_Error, err. simpl. rewrite Hcs, Hthis. reflexivity. }
  rewrite Herr in Hcb. clear Herr. rewrite Hthis in Hcb.
  destruct (onClose (this s) (Some err) _) as [e|];
    destruct Hcb as [_ Htrace]; rewrite Htrace; rewrite ?Hctx;
    rewrite !window_closes_app, !hook_calls_app, Hhooks, Hcloses; simpl;
    rewrite ?app_nil_r; split; reflexivity.
Qed.

Lemma parent_closure_before_the_reply_witness :
  window_closes (trace_of (window_closed WatchParent
                             (snd (init (foo_at_home false))))) = [] /\
  length (hook_calls OnClose (trace_of (window_closed WatchParent
                                          (snd (init (foo_at_home false)))))) = 1.
Proof.
  assert (H : resolvable (foo_at_home false)).
  { repeat split. exists {| win_tag := "foo" |}. split; reflexivity. }
  destruct (parent_closure_before_the_reply H eq_refl) as [H1 H2].
  split; [exact H1 | rewrite H2; reflexivity].
Defined.
